(** * mulysu: a song database with votable resources

    Shallow embedding of [mulysu.py] and proofs of the properties its
    specification states about ranking, search, persistence, adding songs
    and voting.

    Python values are modelled as follows.
    - [str] is a sequence of Unicode code points, [list N].  Comparison
      ([<], [>], [==]) is the lexicographic order on code points and
      [q in s] is the substring test.
    - [int] is [Z] (Python integers are unbounded).
    - [Optional[str]] is [option pystr].
    - the dataclasses [Resource] and [Song] are records; a list of
      dataclass instances is a list of records.  Every [Resource] and
      [Song] object of the program is created by [load] or [add_song] and
      is referenced from exactly one place, so in-place updates are
      modelled as updates of the enclosing list at an index. *)

From Stdlib Require Import ZArith NArith Lia Ascii String DecimalString.
From stdpp Require Import numbers sorting.
From stdpp Require Import base tactics option list strings.

Local Open Scope Z_scope.

(** ** Strings *)

Definition pystr := list N.

(** An ASCII literal of the source as a sequence of code points. *)
Definition lit (s : string) : pystr :=
  (λ a, N_of_ascii a) <$> list_ascii_of_string s.

Arguments lit : simpl never.

(** [a < b] on [str]: lexicographic on code points. *)
Fixpoint str_lt (a b : pystr) : bool :=
  match a, b with
  | _, [] => false
  | [], _ :: _ => true
  | x :: a', y :: b' =>
      if (x <? y)%N then true
      else if (x =? y)%N then str_lt a' b'
      else false
  end.

(** [a > b] on [str]. *)
Definition str_gt (a b : pystr) : bool := str_lt b a.

(** [a == b] on [str]. *)
Definition str_eqb (a b : pystr) : bool := bool_decide (a = b).

(** [s.startswith(q)], the helper of the substring test. *)
Fixpoint str_startswith (q s : pystr) : bool :=
  match q, s with
  | [], _ => true
  | _ :: _, [] => false
  | x :: q', y :: s' => (x =? y)%N && str_startswith q' s'
  end.

(** [q in s] on [str]: [q] occurs in [s] at some offset. *)
Fixpoint str_in (q s : pystr) : bool :=
  str_startswith q s ||
  match s with
  | [] => false
  | _ :: s' => str_in q s'
  end.

(** [str(n)] for an [int]. *)
Definition str_of_int (n : Z) : pystr :=
  lit (NilZero.string_of_int (Z.to_int n)).

(** [len(l)] as an [int]. *)
Definition len {A} (l : list A) : Z := Z.of_nat (length l).

(** ** Data model *)

Record Resource := mkResource {
  type : pystr;
  url : pystr;
  language : pystr;
  votes : Z;
  content : option pystr
}.

Record Song := mkSong {
  artist : pystr;
  song : pystr;
  artist_original : pystr;
  song_original : pystr;
  resources : list Resource
}.

(** ** Ranking *)

(** The comparison function local to [_sort_resources]. *)
Definition compare (r1 r2 : Resource) : Z :=
  if negb (votes r1 =? votes r2) then votes r2 - votes r1
  else Z.b2z (str_gt (type r1) (type r2)) - Z.b2z (str_lt (type r1) (type r2)).

(** [functools.cmp_to_key]: the key objects compare with
    [K(a) < K(b)  iff  mycmp(a, b) < 0]; [sorted] only ever uses [<]. *)
Definition cmp_to_key {A} (mycmp : A → A → Z) (a b : A) : bool :=
  mycmp a b <? 0.

(** [sorted(l, key=...)]: Python guarantees a stable sort, which for a
    strict weak order has exactly one result ([sorted_unique] below).
    The model inserts each element in front of the already sorted rest,
    after all elements strictly smaller and before all equivalent ones. *)
Fixpoint sorted_insert {A} (lt : A → A → bool) (x : A) (l : list A) : list A :=
  match l with
  | [] => [x]
  | y :: l' => if lt y x then y :: sorted_insert lt x l' else x :: y :: l'
  end.

Fixpoint sorted {A} (lt : A → A → bool) (l : list A) : list A :=
  match l with
  | [] => []
  | x :: l' => sorted_insert lt x (sorted lt l')
  end.

Definition _sort_resources (resources : list Resource) : list Resource :=
  sorted (cmp_to_key compare) resources.

(** ** List objects

    [sorted] reads its argument and allocates its result.  To speak about
    that, list objects are kept in a store indexed by address. *)

Definition store := list (list Resource).

(** [_sort_resources] on list objects: the argument is the address of the
    list to rank, the result is the address of the ranked list. *)
Definition _sort_resources_obj (h : store) (resources : nat)
    : option (store * nat) :=
  l ← h !! resources;
  Some (h ++ [_sort_resources l], length h).

(** ** Builtins of the Python runtime

    [str.lower] and [str.strip] depend on the Unicode tables of the
    interpreter and [int] on its number syntax; they are parameters of the
    development.  [py_int] is [None] where [int] raises [ValueError]. *)

Class PyBuiltins := {
  lower : pystr → pystr;
  strip : pystr → pystr;
  py_int : pystr → option Z;
  lower_empty : lower [] = []
}.

(** ** Persisted document *)

(** The values [json.load] returns and [json.dump] accepts.  A [JDict]
    lists the items of a dict in insertion order. *)
#[warnings="-register-all"]
Inductive json :=
| JNull
| JBool (b : bool)
| JInt (n : Z)
| JFloat (repr : pystr)
| JStr (s : pystr)
| JList (l : list json)
| JDict (d : list (pystr * json)).

(** [d.get(k)] as an option. *)
Fixpoint dict_get (k : pystr) (d : list (pystr * json)) : option json :=
  match d with
  | [] => None
  | (k', v) :: d' => if str_eqb k' k then Some v else dict_get k d'
  end.

(** [d[k] = v]: an existing key keeps its position. *)
Fixpoint dict_set (k : pystr) (v : json) (d : list (pystr * json))
    : list (pystr * json) :=
  match d with
  | [] => [(k, v)]
  | (k', v') :: d' =>
      if str_eqb k' k then (k', v) :: d' else (k', v') :: dict_set k v d'
  end.

(** What [DB_FILE] holds: bytes that are not UTF-8, text that is not JSON
    (with the message of the decoder), or the text of a JSON value.
    [json.dump] and [json.load] are library code and are taken to be
    inverse to each other on JSON values, so a document is identified
    with its value.  This is what the library does for text that UTF-8
    can encode (no lone surrogates) and for integers below the
    interpreter's limit on the number of digits; both limits lie outside
    the model. *)
Inductive file_content :=
| NotUtf8
| NotJson (msg : pystr)
| Document (data : json).

(** ** Program state, input and output *)

Inductive exn :=
| EOFError
| ValueError
| TypeError
| AttributeError
| IndexError
| UnicodeDecodeError
| KeyError (key : pystr)
| JSONDecodeError (msg : pystr).

(** [str(e)] for the exceptions [load] reports. *)
Definition str_of_exn (e : exn) : pystr :=
  match e with
  | KeyError key => lit "'" ++ key ++ lit "'"
  | JSONDecodeError msg => msg
  | _ => []
  end.

Inductive event :=
| Prompt (s : pystr)
| Print (s : pystr)
| Write (data : json).

(** The [SongDatabase] object ([songs]) with its environment: the file
    [DB_FILE] if it exists, the lines still to be read from standard
    input, and what the program has printed and written so far. *)
Record World := mkWorld {
  songs : list Song;
  disk : option file_content;
  stdin : list pystr;
  trace : list event
}.

Definition set_songs (l : list Song) (w : World) : World :=
  mkWorld l (disk w) (stdin w) (trace w).
Definition set_disk (d : option file_content) (w : World) : World :=
  mkWorld (songs w) d (stdin w) (trace w).
Definition set_stdin (l : list pystr) (w : World) : World :=
  mkWorld (songs w) (disk w) l (trace w).
Definition emit (e : event) (w : World) : World :=
  mkWorld (songs w) (disk w) (stdin w) (trace w ++ [e]).

(** A call returns, raises, or ([Untyped]) returns after storing a value
    whose type is not the annotated one, a state the records above cannot
    hold; only [load] can produce it, from a document of that shape. *)
Inductive outcome (A : Type) :=
| Ret (a : A)
| Raise (e : exn)
| Untyped.
Arguments Ret {A} a.
Arguments Raise {A} e.
Arguments Untyped {A}.

Definition M (A : Type) : Type := World → outcome A * World.

#[global] Instance M_ret : MRet M := λ A a w, (Ret a, w).
#[global] Instance M_bind : MBind M := λ A B f m w,
  match m w with
  | (Ret a, w') => f a w'
  | (Raise e, w') => (Raise e, w')
  | (Untyped, w') => (Untyped, w')
  end.
#[global] Instance M_fmap : FMap M := λ A B f m w,
  match m w with
  | (Ret a, w') => (Ret (f a), w')
  | (Raise e, w') => (Raise e, w')
  | (Untyped, w') => (Untyped, w')
  end.

Definition raise {A} (e : exn) : M A := λ w, (Raise e, w).
Definition untyped {A} : M A := λ w, (Untyped, w).
Definition get_songs : M (list Song) := λ w, (Ret (songs w), w).
Definition put_songs (l : list Song) : M unit := λ w, (Ret tt, set_songs l w).

(** [try: body except ...: handler], where [catches e] tells whether the
    [except] clause names the class of [e]. *)
Definition try_except {A} (body : M A) (catches : exn → bool)
    (handler : exn → M A) : M A := λ w,
  match body w with
  | (Raise e, w') => if catches e then handler e w' else (Raise e, w')
  | r => r
  end.

(** [print(s)]. *)
Definition print (s : pystr) : M unit := λ w, (Ret tt, emit (Print s) w).

(** [input(prompt)]: shows the prompt, then returns the next line or
    raises [EOFError] at the end of input. *)
Definition input (prompt : pystr) : M pystr := λ w,
  match stdin w with
  | [] => (Raise EOFError, emit (Prompt prompt) w)
  | line :: rest => (Ret line, set_stdin rest (emit (Prompt prompt) w))
  end.

(** [for i, x in enumerate(l, start): body(i, x)]. *)
Fixpoint for_enumerate {A} (start : Z) (l : list A) (body : Z → A → M unit)
    : M unit :=
  match l with
  | [] => mret tt
  | x :: l' => body start x;; for_enumerate (start + 1) l' body
  end.

Definition nl : pystr := [10%N].

(** ** Store: save and load *)

(** [dataclasses.asdict] on a [Resource]. *)
Definition asdict_Resource (r : Resource) : json :=
  JDict [ (lit "type", JStr (type r));
          (lit "url", JStr (url r));
          (lit "language", JStr (language r));
          (lit "votes", JInt (votes r));
          (lit "content", match content r with
                          | None => JNull
                          | Some c => JStr c
                          end) ].

(** [dataclasses.asdict] on a [Song]; it recurses into the resource list. *)
Definition asdict_Song (s : Song) : list (pystr * json) :=
  [ (lit "artist", JStr (artist s));
    (lit "song", JStr (song s));
    (lit "artist_original", JStr (artist_original s));
    (lit "song_original", JStr (song_original s));
    (lit "resources", JList (asdict_Resource <$> resources s)) ].

(** The [song_dict] that [save] builds for one song. *)
Definition song_dict (s : Song) : json :=
  JDict (dict_set (lit "resources") (JList (asdict_Resource <$> resources s))
           (asdict_Song s)).

(** The list [data] that [save] builds. *)
Definition save_data (self_songs : list Song) : json :=
  JList (song_dict <$> self_songs).

Definition save : M unit := λ w,
  let data := save_data (songs w) in
  (Ret tt, emit (Write data) (set_disk (Some (Document data)) w)).

(** [for x in v]: the items a [for] loop or comprehension visits. *)
Definition py_iter (v : json) : M (list json) :=
  match v with
  | JList l => mret l
  | JDict d => mret ((λ kv, JStr kv.1) <$> d)
  | JStr s => mret ((λ c, JStr [c]) <$> s)
  | _ => raise TypeError
  end.

(** [v.get(k, default)]. *)
Definition py_get (v : json) (k : pystr) (default : json) : M json :=
  match v with
  | JDict d => mret (from_option id default (dict_get k d))
  | _ => raise AttributeError
  end.

(** [v[k]] for a string key. *)
Definition py_getitem (v : json) (k : pystr) : M json :=
  match v with
  | JDict d =>
      match dict_get k d with
      | Some x => mret x
      | None => raise (KeyError k)
      end
  | _ => raise TypeError
  end.

(** Reading a loaded value at its annotated type. *)
Definition as_str (v : json) : option pystr :=
  match v with JStr s => Some s | _ => None end.
Definition as_int (v : json) : option Z :=
  match v with JInt n => Some n | _ => None end.
Definition as_optional_str (v : json) : option (option pystr) :=
  match v with JNull => Some None | JStr s => Some (Some s) | _ => None end.

Definition Resource_fields : list pystr :=
  [lit "type"; lit "url"; lit "language"; lit "votes"; lit "content"].

(** [Resource] called with the items of [res] as keyword arguments
    (the double-star call of [load]): [res] must be a mapping, every key must name a
    field, and the fields without default must be given; otherwise the
    call raises [TypeError].  The result is [None] when a value is not of
    the annotated type (the constructor does not check). *)
Definition new_Resource (res : json) : M (option Resource) :=
  match res with
  | JDict kwargs =>
      if forallb (λ kv, bool_decide (kv.1 ∈ Resource_fields)) kwargs then
        match dict_get (lit "type") kwargs, dict_get (lit "url") kwargs,
              dict_get (lit "language") kwargs with
        | Some t, Some u, Some l =>
            let v := from_option id (JInt 0) (dict_get (lit "votes") kwargs) in
            let c := from_option id JNull (dict_get (lit "content") kwargs) in
            mret (t' ← as_str t; u' ← as_str u; l' ← as_str l;
                  v' ← as_int v; c' ← as_optional_str c;
                  Some (mkResource t' u' l' v' c'))
        | _, _, _ => raise TypeError
        end
      else raise TypeError
  | _ => raise TypeError
  end.

(** The list comprehension of [load] that builds the resources. *)
Fixpoint new_Resources (items : list json) : M (option (list Resource)) :=
  match items with
  | [] => mret (Some [])
  | res :: items' =>
      r ← new_Resource res;
      rs ← new_Resources items';
      mret (r' ← r; rs' ← rs; Some (r' :: rs'))
  end.

(** The [Song(...)] call of [load]; evaluation order as in the source. *)
Definition new_Song (song_data : json) : M (option Song) :=
  v ← py_get song_data (lit "resources") (JList []);
  items ← py_iter v;
  resources ← new_Resources items;
  a ← py_getitem song_data (lit "artist");
  s ← py_getitem song_data (lit "song");
  ao ← py_getitem song_data (lit "artist_original");
  so ← py_getitem song_data (lit "song_original");
  mret (a' ← as_str a; s' ← as_str s; ao' ← as_str ao; so' ← as_str so;
        rs ← resources; Some (mkSong a' s' ao' so' rs)).

(** The [for song_data in data] loop of [load].  [typed] is false once a
    song outside the typed model was appended; such a song is not
    recorded in [songs]. *)
Fixpoint load_loop (typed : bool) (items : list json) : M bool :=
  match items with
  | [] => mret typed
  | song_data :: items' =>
      s ← new_Song song_data;
      match s with
      | Some s' =>
          self_songs ← get_songs;
          put_songs (self_songs ++ [s']);;
          load_loop typed items'
      | None => load_loop false items'
      end
  end.

Definition load_catches (e : exn) : bool :=
  match e with
  | JSONDecodeError _ | KeyError _ => true
  | _ => false
  end.

Definition load : M unit := λ w,
  match disk w with
  | None => save w
  | Some f =>
      try_except
        (data ← match f with
                | NotUtf8 => raise UnicodeDecodeError
                | NotJson msg => raise (JSONDecodeError msg)
                | Document data => mret data
                end;
         put_songs [];;
         items ← py_iter data;
         typed ← load_loop true items;
         if typed : bool then mret tt else untyped)
        load_catches
        (λ e, print (lit "Error loading database: " ++ str_of_exn e);;
              put_songs [])
        w
  end.

(** [SongDatabase()]. *)
Definition __init__ : M unit := put_songs [];; load.

(** ** Operations of [SongDatabase] *)

Section operations.
Context `{PyBuiltins}.

(** *** Query *)

(** The condition of the [if] in [search]; [query] is already lower case. *)
Definition search_matches (query : pystr) (s : Song) : bool :=
  str_in query (lower (artist s)) ||
  str_in query (lower (song s)) ||
  str_in query (lower (artist_original s)) ||
  str_in query (lower (song_original s)).

(** The [for song in self.songs] loop of [search], appending to [results]. *)
Fixpoint search_loop (query : pystr) (results : list Song)
    (self_songs : list Song) : list Song :=
  match self_songs with
  | [] => results
  | s :: rest =>
      if search_matches query s
      then search_loop query (results ++ [s]) rest
      else search_loop query results rest
  end.

Definition search (query : pystr) : M (list Song) :=
  let query := lower query in
  self_songs ← get_songs;
  mret (search_loop query [] self_songs).

(** *** Add song *)

(** [x or y] on strings. *)
Definition str_or (x y : pystr) : pystr :=
  if bool_decide (x = []) then y else x.

(** The [while True] loop of [add_song].  Every round reads at least one
    line, so [fuel] larger than the number of lines left is never used up
    ([add_resources_loop_fuel]). *)
Fixpoint add_resources_loop (fuel : nat) (resources : list Resource)
    : M (list Resource) :=
  match fuel with
  | O => mret resources
  | S fuel' =>
      answer ← input (nl ++ lit "Add a resource? (y/n): ");
      if negb (str_eqb (lower answer) (lit "y")) then mret resources
      else
        print (nl ++ lit "--- New Resource ---");;
        res_type ← strip <$> input (lit "Type (e.g., vid.subs, vid.lyrics): ");
        url ← strip <$> input (lit "URL: ");
        language ← (λ s, str_or (strip s) (lit "en")) <$>
                     input (lit "Language code (en/es/ja/etc) [en]: ");
        content ← strip <$>
                    input (lit "Content/notes (optional, press Enter to skip): ");
        let content := if bool_decide (content = []) then None
                       else Some content in
        let resources :=
          resources ++ [mkResource res_type url language 0 content] in
        print (lit "Resource added.");;
        add_resources_loop fuel' resources
  end.

Definition check_mark : pystr := [226%N; 339%N; 8220%N].

Definition add_song : M unit :=
  print (nl ++ lit "=== Add New Song ===");;
  artist ← strip <$> input (lit "Artist name: ");
  if bool_decide (artist = []) then print (lit "Artist name is required.")
  else
    artist_original ← (λ s, str_or (strip s) artist) <$>
      input (lit "Original artist name [" ++ artist ++ lit "]: ");
    song_name ← strip <$> input (lit "Song name: ");
    if bool_decide (song_name = []) then print (lit "Song name is required.")
    else
      song_original ← (λ s, str_or (strip s) song_name) <$>
        input (lit "Original song name [" ++ song_name ++ lit "]: ");
      resources ← (λ w, add_resources_loop (S (length (stdin w))) [] w);
      let new_song :=
        mkSong artist song_name artist_original song_original resources in
      self_songs ← get_songs;
      put_songs (self_songs ++ [new_song]);;
      save;;
      print (nl ++ check_mark ++ lit " Song '" ++ song_name ++ lit "' by '"
             ++ artist ++ lit "' has been added.").

(** *** Display *)

Definition up_mark : pystr := [226%N; 8211%N; 178%N].

(** The [vote_str] of the display loops. *)
Definition vote_str (r : Resource) : pystr :=
  if 0 <? votes r then up_mark ++ lit " " ++ str_of_int (votes r) else [].

Definition display_song (s : Song) (index : option Z) : M unit :=
  let prefix := match index with
                | Some i => str_of_int i ++ lit ". "
                | None => []
                end in
  print (nl ++ prefix ++ artist s ++ lit " - " ++ song s);;
  (if negb (str_eqb (song_original s) (song s))
   then print (lit "   Original: " ++ song_original s)
   else mret tt);;
  if negb (bool_decide (resources s = [])) then
    let sorted_resources := _sort_resources (resources s) in
    print (lit "   Resources (sorted by votes):");;
    for_enumerate 1 sorted_resources (λ i resource,
      print (lit "     " ++ str_of_int i ++ lit ". [" ++ type resource
             ++ lit "] " ++ language resource ++ lit " " ++ vote_str resource);;
      print (lit "         URL: " ++ url resource);;
      match content resource with
      | Some c =>
          if bool_decide (c = []) then mret tt
          else
            let c := if 60 <? len c then take 57 c ++ lit "..." else c in
            print (lit "         Content: " ++ c)
      | None => mret tt
      end)
  else print (lit "   No resources available").

Definition display_search_results (results : list Song) : M unit :=
  if bool_decide (results = []) then print (lit "No matches found.")
  else
    print (nl ++ lit "Found " ++ str_of_int (len results) ++ lit " result(s):");;
    for_enumerate 1 results (λ i s, display_song s (Some i)).

(** *** Vote *)

(** [song.resources[k].votes += 1] for [song = self.songs[i]]. *)
Definition incr_votes (i k : nat) (self_songs : list Song) : list Song :=
  alter (λ s, mkSong (artist s) (song s) (artist_original s) (song_original s)
                (alter (λ r, mkResource (type r) (url r) (language r)
                               (votes r + 1) (content r))
                       k (resources s)))
        i self_songs.

(** The [for k, resource in enumerate(song.resources)] loop, entered at
    index [k] with [rest] still to visit; [song] is [self.songs[i]].
    The result tells whether the loop left the function by [return]. *)
Fixpoint vote_resource_loop (i : nat) (selected_resource : Resource)
    (k : nat) (rest : list Resource) : M bool :=
  match rest with
  | [] => mret false
  | resource :: rest' =>
      if str_eqb (type resource) (type selected_resource) &&
         str_eqb (url resource) (url selected_resource)
      then
        self_songs ← get_songs;
        put_songs (incr_votes i k self_songs);;
        save;;
        print (nl ++ check_mark ++ lit " Vote added! Now has "
               ++ str_of_int (votes resource + 1) ++ lit " votes.");;
        mret true
      else vote_resource_loop i selected_resource (S k) rest'
  end.

(** What [vote_on_resource] does with the first song that has the artist
    and name of the selection; [s] is [self.songs[i]].  The result tells
    whether the function returned. *)
Definition vote_song_body (i : nat) (s : Song) : M bool :=
  if bool_decide (resources s = []) then
    print (lit "This song has no resources.");; mret true
  else
    let sorted_resources := _sort_resources (resources s) in
    print (nl ++ lit "Resources for '" ++ song s ++ lit "':");;
    for_enumerate 1 sorted_resources (λ j resource,
      print (lit "  " ++ str_of_int j ++ lit ". " ++ type resource ++ lit " ("
             ++ language resource ++ lit ") " ++ vote_str resource));;
    line ← input (lit "Select resource to upvote: ");
    match py_int line with
    | None => raise ValueError
    | Some n =>
        let resource_choice := n - 1 in
        if negb ((0 <=? resource_choice) &&
                 (resource_choice <? len sorted_resources))
        then print (lit "Invalid selection.");; mret true
        else
          match sorted_resources !! Z.to_nat resource_choice with
          | None => raise IndexError
          | Some selected_resource =>
              vote_resource_loop i selected_resource 0 (resources s)
          end
    end.

(** The [for i, song in enumerate(self.songs)] loop, entered at index [i]
    with [rest] still to visit. *)
Fixpoint vote_song_loop (selected_song : Song) (i : nat) (rest : list Song)
    : M unit :=
  match rest with
  | [] => mret tt
  | s :: rest' =>
      if str_eqb (artist s) (artist selected_song) &&
         str_eqb (song s) (song selected_song)
      then
        returned ← vote_song_body i s;
        if returned : bool then mret tt
        else vote_song_loop selected_song (S i) rest'
      else vote_song_loop selected_song (S i) rest'
  end.

Definition catches_ValueError (e : exn) : bool :=
  match e with ValueError => true | _ => false end.

Definition vote_on_resource : M unit :=
  self_songs ← get_songs;
  if bool_decide (self_songs = []) then print (lit "Database is empty.")
  else
    query ← (λ s, lower (strip s)) <$> input (lit "Search for song to vote on: ");
    if bool_decide (query = []) then mret tt
    else
      results ← search query;
      if bool_decide (results = []) then print (lit "No matches found.")
      else
        print (nl ++ lit "Found " ++ str_of_int (len results)
               ++ lit " result(s):");;
        for_enumerate 1 results (λ i s,
          print (str_of_int i ++ lit ". " ++ artist s ++ lit " - " ++ song s));;
        try_except
          (line ← input (nl ++ lit "Select song number: ");
           match py_int line with
           | None => raise ValueError
           | Some n =>
               let song_choice := n - 1 in
               if negb ((0 <=? song_choice) && (song_choice <? len results))
               then print (lit "Invalid selection.")
               else
                 match results !! Z.to_nat song_choice with
                 | None => raise IndexError
                 | Some selected_song =>
                     self_songs ← get_songs;
                     vote_song_loop selected_song 0 self_songs
                 end
           end)
          catches_ValueError
          (λ _, print (lit "Please enter a valid number.")).

(** *** Listing *)

Definition list_all : M unit :=
  self_songs ← get_songs;
  if bool_decide (self_songs = []) then print (lit "Database is empty.")
  else
    print (nl ++ lit "=== All Songs (" ++ str_of_int (len self_songs)
           ++ lit " total) ===");;
    for_enumerate 1 self_songs (λ i s,
      print (nl ++ str_of_int i ++ lit ". " ++ artist s ++ lit " - " ++ song s);;
      (if negb (str_eqb (song_original s) (song s))
       then print (lit "   Original: " ++ song_original s)
       else mret tt);;
      if negb (bool_decide (resources s = [])) then
        let sorted_resources := _sort_resources (resources s) in
        let total_votes := foldr Z.add 0 (votes <$> resources s) in
        print (lit "   Resources: " ++ str_of_int (len (resources s))
               ++ lit " (Total votes: " ++ str_of_int total_votes ++ lit ")");;
        for_enumerate 1 (take 2 sorted_resources) (λ j resource,
          print (lit "     " ++ str_of_int j ++ lit ". " ++ type resource
                 ++ lit " (" ++ language resource ++ lit ") "
                 ++ vote_str resource))
      else mret tt).

(** *** The menu *)

Definition catches_EOFError (e : exn) : bool :=
  match e with EOFError => true | _ => false end.

(** One pass through the body of the [while True] loop of [main]; the
    result tells whether the loop was left by [break]. *)
Definition main_body : M bool :=
  try_except
    (print (nl ++ lit "Options:");;
     print (lit "  1. Search songs");;
     print (lit "  2. Add new song");;
     print (lit "  3. List all songs");;
     print (lit "  4. Vote on resource");;
     print (lit "  5. Exit");;
     choice ← strip <$> input (nl ++ lit "Your choice: ");
     if str_eqb choice (lit "1") then
       query ← strip <$> input (lit "Search for song or artist: ");
       results ← search query;
       display_search_results results;; mret false
     else if str_eqb choice (lit "2") then add_song;; mret false
     else if str_eqb choice (lit "3") then list_all;; mret false
     else if str_eqb choice (lit "4") then vote_on_resource;; mret false
     else if str_eqb choice (lit "5") then print (lit "Goodbye!");; mret true
     else print (lit "Invalid option. Please choose 1-5.");; mret false)
    catches_EOFError
    (λ _, print (nl ++ nl ++ lit "Exiting...");; mret true).

(** [main] up to the loop. *)
Definition main_start : M unit :=
  print ([240%N; 376%N; 381%N; 181%N] ++ lit " Song Database Manager");;
  print (lit "Using dataclasses with full UTF-8 support");;
  __init__.

End operations.

(** ** The builtins on ASCII text

    An instance of the builtins that follows CPython on ASCII input; it
    is used to run the operations on concrete input. *)

Definition ascii_lower (s : pystr) : pystr :=
  (λ c, if (65 <=? c)%N && (c <=? 90)%N then (c + 32)%N else c) <$> s.

Definition ascii_isspace (c : N) : bool :=
  ((9 <=? c)%N && (c <=? 13)%N) || ((28 <=? c)%N && (c <=? 32)%N).

Fixpoint ascii_lstrip (s : pystr) : pystr :=
  match s with
  | [] => []
  | c :: s' => if ascii_isspace c then ascii_lstrip s' else s
  end.

Definition ascii_strip (s : pystr) : pystr :=
  reverse (ascii_lstrip (reverse (ascii_lstrip s))).

(** Decimal digits with single underscores between them. *)
Fixpoint ascii_digits (acc : Z) (after_digit : bool) (s : pystr) : option Z :=
  match s with
  | [] => if after_digit then Some acc else None
  | c :: s' =>
      if (48 <=? c)%N && (c <=? 57)%N
      then ascii_digits (10 * acc + (Z.of_N c - 48)) true s'
      else if (c =? 95)%N && after_digit then ascii_digits acc false s'
      else None
  end.

Definition ascii_int (s : pystr) : option Z :=
  match ascii_strip s with
  | c :: s' =>
      if (c =? 45)%N then Z.opp <$> ascii_digits 0 false s'
      else if (c =? 43)%N then ascii_digits 0 false s'
      else ascii_digits 0 false (c :: s')
  | [] => None
  end.

#[global] Instance ascii_builtins : PyBuiltins := {|
  lower := ascii_lower;
  strip := ascii_strip;
  py_int := ascii_int;
  lower_empty := eq_refl
|}.

(** ** The scenario of the specification and variations of it *)

Definition scenario_resources : list Resource :=
  [ mkResource (lit "vid.subs") (lit "u1") (lit "en") 2 None;
    mkResource (lit "vid.lyrics") (lit "u2") (lit "en") 2 None;
    mkResource (lit "vid.sync") (lit "u3") (lit "en") 5 None ].

Definition scenario_song : Song :=
  mkSong (lit "A") (lit "S1") (lit "A") (lit "S1") scenario_resources.

(** A second entry for the same artist and song, without resources. *)
Definition bare_song : Song :=
  mkSong (lit "A") (lit "S1") (lit "A") (lit "S1") [].

(** Two resources with the same type and url. *)
Definition twin_en : Resource :=
  mkResource (lit "vid.subs") (lit "u") (lit "en") 0 None.
Definition twin_ja : Resource :=
  mkResource (lit "vid.subs") (lit "u") (lit "ja") 5 None.
Definition twin_song : Song :=
  mkSong (lit "B") (lit "S2") (lit "B") (lit "S2") [twin_en; twin_ja].

(** The program with the collection [l] in memory, no database file yet,
    and [inp] as the lines the user is going to type. *)
Definition session (l : list Song) (inp : list pystr) : World :=
  mkWorld l None inp [].

(** ** Notions used in the statements *)

(** For a comparison [lt] as [sorted] uses it: [x] may stand before [y]. *)
Definition le_of {A} (lt : A → A → bool) (x y : A) : Prop := lt y x = false.

(** [x] and [y] are not ordered by [lt]. *)
Definition tied {A} (lt : A → A → bool) (x y : A) : Prop :=
  lt x y = false ∧ lt y x = false.

#[global] Instance tied_dec {A} (lt : A → A → bool) x y :
  Decision (tied lt x y).
Proof. unfold tied. apply _. Defined.

(** Ordinal order on strings: the first differing code point decides, a
    proper prefix comes first. *)
Inductive lex_lt : pystr → pystr → Prop :=
| lex_lt_nil y b : lex_lt [] (y :: b)
| lex_lt_head x y a b : (x < y)%N → lex_lt (x :: a) (y :: b)
| lex_lt_tail x a b : lex_lt a b → lex_lt (x :: a) (x :: b).

(** [r1] may stand before [r2] in a ranking: more votes, or the same votes
    and a type that is not larger. *)
Definition ranked_le (r1 r2 : Resource) : Prop :=
  votes r2 < votes r1 ∨
  (votes r1 = votes r2 ∧ (type r1 = type r2 ∨ lex_lt (type r1) (type r2))).

(** Resources the ranking does not distinguish. *)
Definition same_rank (r1 r2 : Resource) : Prop :=
  votes r1 = votes r2 ∧ type r1 = type r2.

#[global] Instance same_rank_dec r1 r2 : Decision (same_rank r1 r2).
Proof. unfold same_rank. apply _. Defined.

(** [q] occurs in [s]. *)
Definition substring_of (q s : pystr) : Prop :=
  ∃ pre post, s = pre ++ q ++ post.

(** [l'] keeps exactly the elements of [l] that satisfy [P], each as
    often as and in the order in which it occurs in [l]. *)
Inductive selects {A} (P : A → Prop) : list A → list A → Prop :=
| selects_nil : selects P [] []
| selects_keep x l l' : P x → selects P l l' → selects P (x :: l) (x :: l')
| selects_skip x l l' : ¬ P x → selects P l l' → selects P (x :: l) l'.

(** All events of [evs] were appended to the trace and nothing else of the
    world changed. *)
Definition emits (evs : list event) (w : World) : World :=
  mkWorld (songs w) (disk w) (stdin w) (trace w ++ evs).

(** What a loop of [print] calls over [enumerate(l, start)] prints. *)
Fixpoint enum_prints {A} (start : Z) (l : list A) (f : Z → A → pystr)
    : list event :=
  match l with
  | [] => []
  | x :: l' => Print (f start x) :: enum_prints (start + 1) l' f
  end.

(** The song [s] with the votes of its [k]-th resource [r] raised by one. *)
Definition upvoted (s : Song) (k : nat) (r : Resource) : Song :=
  mkSong (artist s) (song s) (artist_original s) (song_original s)
    (<[k := mkResource (type r) (url r) (language r) (votes r + 1) (content r)]>
       (resources s)).

(** [l'] is [l] after one vote for resource [k] of song [i]: that counter
    is one higher, everything else and every position is as before. *)
Definition voted_at (i k : nat) (l l' : list Song) : Prop :=
  ∃ s r, l !! i = Some s ∧ resources s !! k = Some r ∧
         l' = <[i := upvoted s k r]> l.

(** The vote count of resource [k] of song [i]. *)
Definition votes_at (i k : nat) (l : list Song) : option Z :=
  s ← l !! i; r ← resources s !! k; Some (votes r).

(** The index and value of the first element that satisfies [p]. *)
Fixpoint find_first {A} (p : A → bool) (i : nat) (l : list A)
    : option (nat * A) :=
  match l with
  | [] => None
  | x :: l' => if p x then Some (i, x) else find_first p (S i) l'
  end.

(** The identity by which [vote_on_resource] finds a song again. *)
Definition same_song (a b : Song) : bool :=
  str_eqb (artist a) (artist b) && str_eqb (song a) (song b).

(** The identity by which [vote_on_resource] finds a resource again. *)
Definition same_resource (a b : Resource) : bool :=
  str_eqb (type a) (type b) && str_eqb (url a) (url b).

(** Events on the terminal, as opposed to writes of the database file. *)
Definition console (e : event) : Prop :=
  match e with
  | Write _ => False
  | _ => True
  end.

Definition votes_nonneg (l : list Song) : Prop :=
  Forall (λ s, Forall (λ r, 0 ≤ votes r) (resources s)) l.

Section notions.
Context `{PyBuiltins}.

(** The lower-cased query occurs in one of the four lower-cased fields. *)
Definition matches (query : pystr) (s : Song) : Prop :=
  substring_of query (lower (artist s)) ∨
  substring_of query (lower (song s)) ∨
  substring_of query (lower (artist_original s)) ∨
  substring_of query (lower (song_original s)).

(** The message that ends a successful vote. *)
Definition vote_added_msg (n : Z) : pystr :=
  nl ++ check_mark ++ lit " Vote added! Now has " ++ str_of_int n
  ++ lit " votes.".

(** The run from [w] to [w'] ended with a vote that was saved and
    confirmed to the user. *)
Definition vote_added (w w' : World) : Prop :=
  ∃ evs data n,
    trace w' = trace w ++ evs ++ [Write data; Print (vote_added_msg n)].

(** Between [w] and [w'] the program only talked to the user: the
    collection and the file are as before and nothing was written. *)
Definition quiet (w w' : World) : Prop :=
  songs w' = songs w ∧ disk w' = disk w ∧
  ∃ evs, trace w' = trace w ++ evs ∧ Forall console evs.

(** [add_song] started in [w] reads a blank artist name, or a blank song
    name after a proper artist name. *)
Inductive blank_name : list pystr → Prop :=
| blank_artist line rest :
    strip line = [] → blank_name (line :: rest)
| blank_song a ao s rest :
    strip a ≠ [] → strip s = [] → blank_name (a :: ao :: s :: rest).

(** [line] is no valid choice among [n] numbered entries: [int] rejects
    it, or the number is not one of 1..n. *)
Definition bad_choice (n : nat) (line : pystr) : Prop :=
  match py_int line with
  | None => True
  | Some c => ¬ (1 ≤ c ≤ Z.of_nat n)
  end.

(** [vote_on_resource] started in [w] gets as far as asking for a song
    number: the search found [results], the answer will be [line] and
    [rest] is the input after it. *)
Definition at_song_step (w : World) (results : list Song)
    (line : pystr) (rest : list pystr) : Prop :=
  songs w ≠ [] ∧
  ∃ q, stdin w = q :: line :: rest ∧
       lower (strip q) ≠ [] ∧
       results = search_loop (lower (lower (strip q))) [] (songs w) ∧
       results ≠ [].

(** The selection [sel] is looked up in the collection again: [s], at
    index [i], is the first song with its artist and name. *)
Definition relocated (w : World) (sel : Song) (i : nat) (s : Song) : Prop :=
  find_first (λ s', same_song s' sel) 0 (songs w) = Some (i, s).

(** [vote_on_resource] started in [w] gets as far as asking for a
    resource number of song [s] at index [i]; the answer will be [line]. *)
Definition at_resource_step (w : World) (i : nat) (s : Song)
    (line : pystr) (rest : list pystr) : Prop :=
  ∃ results line1 n sel,
    at_song_step w results line1 (line :: rest) ∧
    py_int line1 = Some n ∧ 1 ≤ n ∧
    results !! Z.to_nat (n - 1) = Some sel ∧
    relocated w sel i s ∧
    resources s ≠ [].

(** The user gives an unusable answer at the song or at the resource
    selection of [vote_on_resource] started in [w]. *)
Inductive bad_selection (w : World) : Prop :=
| bad_song_choice results line rest :
    at_song_step w results line rest →
    bad_choice (length results) line →
    bad_selection w
| bad_resource_choice i s line rest :
    at_resource_step w i s line rest →
    bad_choice (length (resources s)) line →
    bad_selection w.

(** The lines that show the ranked resources of [s] before the resource
    number is asked for. *)
Definition resource_menu (s : Song) : list event :=
  Print (nl ++ lit "Resources for '" ++ song s ++ lit "':") ::
  enum_prints 1 (_sort_resources (resources s)) (λ j resource,
    lit "  " ++ str_of_int j ++ lit ". " ++ type resource ++ lit " ("
    ++ language resource ++ lit ") " ++ vote_str resource).

(** What the user sees and types up to the song number. *)
Definition song_menu (results : list Song) : list event :=
  [ Prompt (lit "Search for song to vote on: ");
    Print (nl ++ lit "Found " ++ str_of_int (len results)
           ++ lit " result(s):") ] ++
  enum_prints 1 results (λ i s,
    str_of_int i ++ lit ". " ++ artist s ++ lit " - " ++ song s) ++
  [ Prompt (nl ++ lit "Select song number: ") ].

(** The state when [vote_on_resource], started in [w], has read the song
    number. *)
Definition song_chosen (w : World) (results : list Song) (rest : list pystr)
    : World :=
  set_stdin rest (emits (song_menu results) w).

(** The state when it has also shown the resources of [s] and read the
    resource number. *)
Definition resource_chosen (w : World) (s : Song) (rest : list pystr)
    : World :=
  set_stdin rest
    (emits (resource_menu s ++ [Prompt (lit "Select resource to upvote: ")]) w).

(** The state after the vote for resource [k] of song [i] was counted,
    saved and confirmed; [r] is that resource before the vote. *)
Definition voted_world (i k : nat) (r : Resource) (w : World) : World :=
  let self_songs := incr_votes i k (songs w) in
  emits [Write (save_data self_songs); Print (vote_added_msg (votes r + 1))]
    (set_disk (Some (Document (save_data self_songs)))
       (set_songs self_songs w)).

(** [m] only talks to the user, however it ends. *)
Definition only_talks {A} (m : M A) : Prop :=
  ∀ w o w', m w = (o, w') → quiet w w'.

(** [m] only talks to the user or has the effect [Q] on the state. *)
Definition does {A} (Q : World → World → Prop) (m : M A) : Prop :=
  ∀ w o w', m w = (o, w') → quiet w w' ∨ Q w w'.

(** One song, all of whose resources have no votes yet, was appended to
    the collection and the collection was saved. *)
Definition added (w w' : World) : Prop :=
  ∃ new, Forall (λ r, votes r = 0) (resources new) ∧
         songs w' = songs w ++ [new] ∧
         disk w' = Some (Document (save_data (songs w'))).

(** One vote was counted and the collection was saved. *)
Definition voted (w w' : World) : Prop :=
  ∃ i k, voted_at i k (songs w) (songs w') ∧
         disk w' = Some (Document (save_data (songs w'))).

(** No resource in memory or in the database file has a negative count,
    and the file, if there is one, is as [save] writes it. *)
Definition sound (w : World) : Prop :=
  votes_nonneg (songs w) ∧
  match disk w with
  | None => True
  | Some f => ∃ l, f = Document (save_data l) ∧ votes_nonneg l
  end.

(** [n] successful votes, all counted for resource [k] of song [i], lead
    from [w] to [w']; the user types [inp] before each of them. *)
Inductive voted_times (i k : nat) (w : World) : nat → World → Prop :=
| voted_zero : voted_times i k w 0 w
| voted_again n w' inp o w'' :
    voted_times i k w n w' →
    vote_on_resource (set_stdin inp w') = (o, w'') →
    vote_added w' w'' →
    votes_at i k (songs w'') ≠ votes_at i k (songs w') →
    voted_times i k w (S n) w''.

(** The states of a session: the program starts with no database file or
    with the file an earlier run left, and then passes through the menu
    loop.  The flag tells whether the program is still at the head of the
    loop (it is not after [break] or an exception that ended it). *)
Definition running {A} (expected : A) `{EqDecision A} (o : outcome A) : bool :=
  match o with
  | Ret a => bool_decide (a = expected)
  | _ => false
  end.

Inductive reachable : bool → World → Prop :=
| reachable_start inp o w :
    main_start (mkWorld [] None inp []) = (o, w) →
    reachable (running tt o) w
| reachable_restart b w0 inp o w :
    reachable b w0 →
    main_start (mkWorld [] (disk w0) inp []) = (o, w) →
    reachable (running tt o) w
| reachable_step w o w' :
    reachable true w →
    main_body w = (o, w') →
    reachable (running false o) w'.

End notions.

(** * Further notions *)

(** ** Documents that [load] reads *)

(** The record [res] gives the fields of [r]: its keys are field names,
    type, url and language are there, votes and content may be left out
    when [r] has the defaults. *)
Definition describes_resource (res : json) (r : Resource) : Prop :=
  ∃ kwargs,
    res = JDict kwargs ∧
    Forall (λ kv, kv.1 ∈ Resource_fields) kwargs ∧
    dict_get (lit "type") kwargs = Some (JStr (type r)) ∧
    dict_get (lit "url") kwargs = Some (JStr (url r)) ∧
    dict_get (lit "language") kwargs = Some (JStr (language r)) ∧
    (dict_get (lit "votes") kwargs = Some (JInt (votes r)) ∨
     dict_get (lit "votes") kwargs = None ∧ votes r = 0) ∧
    match content r with
    | Some c => dict_get (lit "content") kwargs = Some (JStr c)
    | None => dict_get (lit "content") kwargs = Some JNull ∨
              dict_get (lit "content") kwargs = None
    end.

(** The entry of the dict [d] for the resources gives the list [rs]; no
    entry gives no resources. *)
Definition describes_resources (d : list (pystr * json))
    (rs : list Resource) : Prop :=
  dict_get (lit "resources") d = None ∧ rs = [] ∨
  ∃ items, dict_get (lit "resources") d = Some (JList items) ∧
           Forall2 describes_resource items rs.

(** The record [song_data] gives the fields of [s]; it may have further
    keys. *)
Definition describes_song (song_data : json) (s : Song) : Prop :=
  ∃ d,
    song_data = JDict d ∧
    dict_get (lit "artist") d = Some (JStr (artist s)) ∧
    dict_get (lit "song") d = Some (JStr (song s)) ∧
    dict_get (lit "artist_original") d = Some (JStr (artist_original s)) ∧
    dict_get (lit "song_original") d = Some (JStr (song_original s)) ∧
    describes_resources d (resources s).

(** The keys [load] reads from a song record, in the order it reads them. *)
Definition song_keys : list pystr :=
  [lit "artist"; lit "song"; lit "artist_original"; lit "song_original"].

(** The key is not in the dict. *)
Definition absent (d : list (pystr * json)) (k : pystr) : bool :=
  match dict_get k d with
  | None => true
  | Some _ => false
  end.

(** ** The menu loop *)

(** [m] gives no input back, raises only exceptions in [allowed] and
    stays within the typed model. *)
Definition behaves {A} (allowed : exn → Prop) (m : M A) : Prop :=
  ∀ w o w', m w = (o, w') →
    stdin w' `suffix_of` stdin w ∧
    match o with
    | Ret _ => True
    | Raise e => allowed e
    | Untyped => False
    end.

Section main.
Context `{PyBuiltins}.

(** The [while True] loop of [main].  Every pass that does not leave the
    loop reads at least one line, so [fuel] larger than the number of
    lines left is never used up ([main_loop_total]).  The input is the
    list of lines in [stdin] followed by the end of the file; an interrupt
    from the keyboard is no part of it, so the handlers for
    [KeyboardInterrupt] have nothing to catch. *)
Fixpoint main_loop (fuel : nat) : M unit :=
  match fuel with
  | O => mret tt
  | S fuel' =>
      stop ← main_body;
      if stop : bool then mret tt else main_loop fuel'
  end.

(** [main]: the banner, the database, the loop. *)
Definition main : M unit :=
  main_start;; ((λ w, main_loop (S (length (stdin w))) w) : M unit).

End main.

(** ** Entering a song *)

(** The file holds exactly the collection in memory. *)
Definition in_sync (w : World) : Prop :=
  disk w = Some (Document (save_data (songs w))).

(** The five lines the user types for one resource of a new song. *)
Record resource_lines := mkLines {
  answer_line : pystr;
  type_line : pystr;
  url_line : pystr;
  language_line : pystr;
  content_line : pystr
}.

Definition lines_of (e : resource_lines) : list pystr :=
  [answer_line e; type_line e; url_line e; language_line e; content_line e].

Section entries.
Context `{PyBuiltins}.

(** The resource [add_song] makes of them. *)
Definition resource_of (e : resource_lines) : Resource :=
  mkResource (strip (type_line e)) (strip (url_line e))
    (str_or (strip (language_line e)) (lit "en")) 0
    (if bool_decide (strip (content_line e) = []) then None
     else Some (strip (content_line e))).

(** The song [add_song] makes of the four name lines and the resource
    lines. *)
Definition song_of (a ao s so : pystr) (entries : list resource_lines)
    : Song :=
  mkSong (strip a) (strip s) (str_or (strip ao) (strip a))
    (str_or (strip so) (strip s)) (resource_of <$> entries).

(** The lines of a complete entry of a song: names that are not blank,
    resources that are each confirmed with y, and an answer other than y
    at the end. *)
Inductive song_lines : list pystr → Song → list pystr → Prop :=
| song_lines_intro a ao s so entries stop rest :
    strip a ≠ [] → strip s ≠ [] →
    Forall (λ e, lower (answer_line e) = lit "y") entries →
    lower stop ≠ lit "y" →
    song_lines (a :: ao :: s :: so :: concat (lines_of <$> entries)
                ++ stop :: rest)
               (song_of a ao s so entries) rest.

End entries.

(** ** Browsing and voting *)

(** [m] always returns, and all it does is print. *)
Definition only_prints {A} (m : M A) : Prop :=
  ∀ w, ∃ a evs, m w = (Ret a, emits evs w) ∧
                Forall (λ e, ∃ s, e = Print s) evs.

(** The total that [list_all] shows for a song. *)
Definition song_votes (s : Song) : Z := foldr Z.add 0 (votes <$> resources s).

Section early.
Context `{PyBuiltins}.

(** [vote_on_resource] started in [w] stops before any selection: the
    collection is empty, the query is blank, or no song matches.  The
    events are what the user sees, the lines are the input left. *)
Inductive stops_early (w : World) : list event → list pystr → Prop :=
| stops_empty :
    songs w = [] →
    stops_early w [Print (lit "Database is empty.")] (stdin w)
| stops_blank q rest :
    songs w ≠ [] → stdin w = q :: rest → lower (strip q) = [] →
    stops_early w [Prompt (lit "Search for song to vote on: ")] rest
| stops_no_match q rest :
    songs w ≠ [] → stdin w = q :: rest → lower (strip q) ≠ [] →
    search_loop (lower (lower (strip q))) [] (songs w) = [] →
    stops_early w [Prompt (lit "Search for song to vote on: ");
                   Print (lit "No matches found.")] rest.

End early.

(** * Properties *)

(** ** Strings *)

Lemma str_lt_lex a b : str_lt a b = true ↔ lex_lt a b.
Proof.
  revert b; induction a as [|x a IH]; intros [|y b]; simpl.
  - split; [done | inversion 1].
  - split; [constructor | done].
  - split; [done | inversion 1].
  - destruct (N.ltb_spec x y) as [Hlt|Hge].
    + split; [by constructor | done].
    + destruct (N.eqb_spec x y) as [->|Hne].
      * rewrite IH. split; [by constructor |].
        inversion 1; subst; [lia | done].
      * split; [done |]. inversion 1; subst; [lia | done].
Qed.

Lemma str_lt_irrefl a : str_lt a a = false.
Proof.
  induction a as [|x a IH]; simpl; [done |].
  by rewrite N.ltb_irrefl, N.eqb_refl.
Qed.

Lemma str_lt_trans a b c :
  str_lt a b = true → str_lt b c = true → str_lt a c = true.
Proof.
  revert b c; induction a as [|x a IH]; intros [|y b] [|z c]; simpl; try done.
  destruct (N.ltb_spec x y), (N.ltb_spec y z), (N.ltb_spec x z);
    destruct (N.eqb_spec x y), (N.eqb_spec y z), (N.eqb_spec x z);
    try done; try lia.
  apply IH.
Qed.

Lemma str_lt_asym a b : str_lt a b = true → str_lt b a = false.
Proof.
  intros Hab. destruct (str_lt b a) eqn:Hba; [|done].
  by rewrite <-(str_lt_irrefl a), (str_lt_trans a b a).
Qed.

Lemma str_lt_total a b : str_lt a b = false → str_lt b a = false → a = b.
Proof.
  revert b; induction a as [|x a IH]; intros [|y b]; simpl; try done.
  destruct (N.ltb_spec x y), (N.ltb_spec y x); try done; try lia.
  assert (x = y) as -> by lia. rewrite N.eqb_refl.
  intros. f_equal. by apply IH.
Qed.

Lemma str_eqb_eq a b : str_eqb a b = true ↔ a = b.
Proof. unfold str_eqb. by rewrite bool_decide_eq_true. Qed.

Lemma str_startswith_prefix q s :
  str_startswith q s = true ↔ ∃ post, s = q ++ post.
Proof.
  revert s; induction q as [|x q IH]; intros [|y s]; simpl.
  - split; [by exists [] | done].
  - split; [by eexists | done].
  - split; [done | by intros [? ?]].
  - rewrite andb_true_iff, IH, N.eqb_eq. split.
    + intros [-> [post ->]]. by exists post.
    + intros [post [= -> ->]]. eauto.
Qed.

Lemma str_in_substring q s : str_in q s = true ↔ substring_of q s.
Proof.
  unfold substring_of. induction s as [|y s IH]; simpl.
  - rewrite orb_false_r, str_startswith_prefix. split.
    + intros [post ->]. by exists [], post.
    + intros [pre [post Heq]]. symmetry in Heq.
      apply app_eq_nil in Heq as [-> Heq].
      apply app_eq_nil in Heq as [-> ->]. by exists [].
  - rewrite orb_true_iff, str_startswith_prefix, IH. split.
    + intros [[post ->]|[pre [post ->]]].
      * by exists [], post.
      * by exists (y :: pre), post.
    + intros [[|z pre] [post Heq]]; simplify_eq/=; eauto.
Qed.

(** ** Stable sorting by a strict weak order *)

Section sorted.
Context {A : Type} (lt : A → A → bool).

#[local] Abbreviation le_of := (le_of lt).
#[local] Abbreviation tied := (tied lt).

Hypothesis lt_irrefl : ∀ x, lt x x = false.
Hypothesis lt_asym : ∀ x y, lt x y = true → lt y x = false.
Hypothesis le_trans : ∀ x y z, le_of x y → le_of y z → le_of x z.

Lemma sorted_insert_perm x l : sorted_insert lt x l ≡ₚ x :: l.
Proof.
  induction l as [|y l IH]; simpl; [done |].
  destruct (lt y x); [|done]. by rewrite IH, Permutation_swap.
Qed.

Lemma sorted_perm l : sorted lt l ≡ₚ l.
Proof.
  induction l as [|x l IH]; simpl; [done |].
  by rewrite sorted_insert_perm, IH.
Qed.

Lemma sorted_insert_sorted x l :
  StronglySorted le_of l → StronglySorted le_of (sorted_insert lt x l).
Proof.
  induction 1 as [|y l Hl IH Hy]; simpl.
  - repeat constructor.
  - destruct (lt y x) eqn:Hyx.
    + constructor; [done |].
      rewrite sorted_insert_perm. constructor; [|done].
      by apply lt_asym.
    + constructor; [by constructor |].
      constructor; [done |].
      eapply Forall_impl; [exact Hy |]. intros z Hz.
      by apply (le_trans x y z).
Qed.

Lemma sorted_sorted l : StronglySorted le_of (sorted lt l).
Proof.
  induction l as [|x l IH]; simpl; [constructor |].
  by apply sorted_insert_sorted.
Qed.

Lemma sorted_insert_filter (P : A → Prop) `{∀ x, Decision (P x)} x l :
  (∀ y, P x → P y → lt y x = false) →
  filter P (sorted_insert lt x l) = filter P (x :: l).
Proof.
  intros HP. induction l as [|y l IH]; simpl; [done |].
  destruct (lt y x) eqn:Hyx; [|done].
  rewrite filter_cons, IH, !filter_cons.
  destruct (decide (P y)) as [Hy|Hy], (decide (P x)) as [Hx|Hx]; try done.
  by rewrite (HP y Hx Hy) in Hyx.
Qed.

(** Elements that are tied with each other keep their order. *)
Lemma sorted_stable (P : A → Prop) `{∀ x, Decision (P x)} l :
  (∀ x y, P x → P y → lt y x = false) →
  filter P (sorted lt l) = filter P l.
Proof.
  intros HP. induction l as [|x l IH]; simpl; [done |].
  rewrite sorted_insert_filter by eauto.
  by rewrite !filter_cons, IH.
Qed.

Lemma sorted_id l : StronglySorted le_of l → sorted lt l = l.
Proof.
  induction 1 as [|x l Hl IH Hx]; simpl; [done |].
  rewrite IH. destruct Hx as [|y l Hxy _]; simpl; [done |].
  by rewrite Hxy.
Qed.

Lemma sorted_idemp l : sorted lt (sorted lt l) = sorted lt l.
Proof. apply sorted_id, sorted_sorted. Qed.

Lemma tied_filter_head x l :
  filter (tied x) (x :: l) = x :: filter (tied x) l.
Proof. rewrite filter_cons_True; [done |]. by split. Qed.

(** Two sorted lists whose classes of tied elements agree are equal. *)
Lemma sorted_eq_of_tied l1 l2 :
  StronglySorted le_of l1 → StronglySorted le_of l2 →
  (∀ z, filter (tied z) l1 = filter (tied z) l2) →
  l1 = l2.
Proof.
  intros Hl1; revert l2.
  induction Hl1 as [|x l1 Hl1 IH Hx]; intros l2 Hl2 Heq.
  - destruct l2 as [|y l2]; [done |].
    specialize (Heq y). by rewrite tied_filter_head in Heq.
  - destruct Hl2 as [|y l2 Hl2 Hy].
    { specialize (Heq x). by rewrite tied_filter_head in Heq. }
    assert (le_of x y) as Hxy.
    { assert (y ∈ x :: l1) as Hin.
      { apply (list_elem_of_filter (tied y)). rewrite Heq.
        rewrite tied_filter_head. left. }
      apply elem_of_cons in Hin as [->|Hin]; [apply lt_irrefl |].
      rewrite Forall_forall in Hx. by apply Hx. }
    assert (le_of y x) as Hyx.
    { assert (x ∈ y :: l2) as Hin.
      { apply (list_elem_of_filter (tied x)). rewrite <-Heq.
        rewrite tied_filter_head. left. }
      apply elem_of_cons in Hin as [->|Hin]; [apply lt_irrefl |].
      rewrite Forall_forall in Hy. by apply Hy. }
    assert (x = y) as <-.
    { specialize (Heq x). rewrite tied_filter_head in Heq.
      rewrite filter_cons_True in Heq by done. congruence. }
    f_equal. apply IH; [done |]. intros z. specialize (Heq z).
    rewrite !filter_cons in Heq. destruct (decide (tied z x)); congruence.
Qed.

(** The result of [sorted] is the only stable sorted arrangement of its
    argument. *)
Lemma sorted_unique l l' :
  StronglySorted le_of l' →
  (∀ z, filter (tied z) l' = filter (tied z) l) →
  l' = sorted lt l.
Proof.
  intros Hl' Heq. apply sorted_eq_of_tied; [done | apply sorted_sorted |].
  intros z. rewrite Heq. symmetry. apply sorted_stable.
  intros x y [Hzx _] [_ Hyz]. exact (le_trans x z y Hzx Hyz).
Qed.

End sorted.

(** ** Ranking *)

Lemma StronglySorted_mono {A} (R R' : A → A → Prop) l :
  (∀ x y, R x y → R' x y) → StronglySorted R l → StronglySorted R' l.
Proof.
  intros HR. induction 1 as [|x l Hl IH Hx]; constructor; [done |].
  eapply Forall_impl; [exact Hx |]. auto.
Qed.

Lemma rank_lt_spec r1 r2 :
  cmp_to_key compare r1 r2 = true ↔
  votes r2 < votes r1 ∨
  (votes r1 = votes r2 ∧ str_lt (type r1) (type r2) = true).
Proof.
  unfold cmp_to_key, compare, str_gt.
  destruct (Z.eqb_spec (votes r1) (votes r2)) as [Heq|Hne]; simpl.
  - destruct (str_lt (type r1) (type r2)) eqn:Hlt.
    + rewrite (str_lt_asym _ _ Hlt). simpl. split; [auto | done].
    + destruct (str_lt (type r2) (type r1)); simpl;
        (split; [done | intros [?|[_ ?]]; [lia | done]]).
  - rewrite Z.ltb_lt. split; [lia | intros [?|[? _]]; lia].
Qed.

Lemma rank_le_spec r1 r2 :
  le_of (cmp_to_key compare) r1 r2 ↔ ranked_le r1 r2.
Proof.
  unfold le_of, ranked_le.
  rewrite <-not_true_iff_false, rank_lt_spec. split.
  - intros Hn. destruct (Z.lt_trichotomy (votes r1) (votes r2)) as [?|[Heq|?]].
    + destruct Hn. by left.
    + right. split; [done |].
      destruct (str_lt (type r2) (type r1)) eqn:Hgt; [destruct Hn; auto |].
      destruct (str_lt (type r1) (type r2)) eqn:Hlt.
      * right. by apply str_lt_lex.
      * left. by apply str_lt_total.
    + by left.
  - intros [Hlt|[Heq [Ht|Ht]]] [Hlt'|[Heq' Hgt]]; try lia.
    + by rewrite Ht, str_lt_irrefl in Hgt.
    + apply str_lt_lex in Ht. by rewrite (str_lt_asym _ _ Ht) in Hgt.
Qed.

Lemma rank_tied_spec r1 r2 :
  tied (cmp_to_key compare) r1 r2 ↔ same_rank r1 r2.
Proof.
  unfold tied, same_rank.
  rewrite <-!not_true_iff_false, !rank_lt_spec. split.
  - intros [H1 H2].
    assert (votes r1 = votes r2) as Heq by lia. split; [done |].
    apply str_lt_total; apply not_true_iff_false; intros Hlt.
    + apply H1. by right.
    + apply H2. by right.
  - intros [Hv Ht]. rewrite Hv, Ht, str_lt_irrefl.
    split; intros [?|[_ ?]]; (lia || done).
Qed.

Lemma rank_lt_irrefl r : cmp_to_key compare r r = false.
Proof. apply rank_tied_spec. by split. Qed.

Lemma rank_lt_asym r1 r2 :
  cmp_to_key compare r1 r2 = true → cmp_to_key compare r2 r1 = false.
Proof.
  rewrite <-not_true_iff_false, !rank_lt_spec.
  intros [Hlt|[Heq Ht]] [Hlt'|[Heq' Ht']]; try lia.
  by rewrite (str_lt_asym _ _ Ht) in Ht'.
Qed.

Lemma rank_le_trans r1 r2 r3 :
  le_of (cmp_to_key compare) r1 r2 → le_of (cmp_to_key compare) r2 r3 →
  le_of (cmp_to_key compare) r1 r3.
Proof.
  rewrite !rank_le_spec. unfold ranked_le.
  intros [?|[Hv [Ht|Ht]]] [?|[Hv' [Ht'|Ht']]]; try (left; lia);
    right; (split; [lia |]).
  - left. congruence.
  - right. by rewrite Ht.
  - right. by rewrite <-Ht'.
  - right. apply str_lt_lex. apply str_lt_lex in Ht, Ht'.
    by apply (str_lt_trans _ (type r2)).
Qed.

Lemma sort_resources_perm l : _sort_resources l ≡ₚ l.
Proof. apply sorted_perm. Qed.

Lemma sort_resources_length l : length (_sort_resources l) = length l.
Proof. by rewrite sort_resources_perm. Qed.

Lemma sort_resources_elem_of r l : r ∈ _sort_resources l ↔ r ∈ l.
Proof. by rewrite sort_resources_perm. Qed.

(** [_sort_resources] computes the one stable ranking of its argument, so
    it agrees with any stable sorting algorithm. *)
Lemma sort_resources_unique l l' :
  StronglySorted ranked_le l' →
  (∀ r, filter (same_rank r) l' = filter (same_rank r) l) →
  l' = _sort_resources l.
Proof.
  intros Hsorted Hstable.
  apply (sorted_unique _ rank_lt_irrefl rank_lt_asym rank_le_trans).
  - eapply StronglySorted_mono; [|exact Hsorted].
    intros ??. by apply rank_le_spec.
  - intros z.
    rewrite (list_filter_iff _ (same_rank z) l'),
      (list_filter_iff _ (same_rank z) l)
      by (intros ?; apply rank_tied_spec).
    apply Hstable.
Qed.

(** C1: [_sort_resources] returns a permutation of its argument, ordered
    by votes descending and, among equal votes, by type ascending;
    resources with the same votes and type keep their relative order; the
    result is a new list object and every list object that existed before
    the call, the argument among them, is unchanged; ranking a ranked list
    changes nothing; and the three resources of the scenario come out as
    vid.sync, vid.lyrics, vid.subs. *)
Theorem sort_resources_ranking :
  (∀ l, _sort_resources l ≡ₚ l) ∧
  (∀ l, StronglySorted ranked_le (_sort_resources l)) ∧
  (∀ l r, filter (same_rank r) (_sort_resources l) = filter (same_rank r) l) ∧
  (∀ (h1 h2 : store) l,
     let h := h1 ++ l :: h2 in
     _sort_resources_obj h (length h1)
       = Some (h ++ [_sort_resources l], length h) ∧
     length h ≠ length h1) ∧
  (∀ l, _sort_resources (_sort_resources l) = _sort_resources l) ∧
  (∀ u1 l1 c1 u2 l2 c2 u3 l3 c3,
     let subs := mkResource (lit "vid.subs") u1 l1 2 c1 in
     let lyrics := mkResource (lit "vid.lyrics") u2 l2 2 c2 in
     let sync := mkResource (lit "vid.sync") u3 l3 5 c3 in
     _sort_resources [subs; lyrics; sync] = [sync; lyrics; subs]).
Proof.
  split_and!.
  - apply sort_resources_perm.
  - intros l. eapply StronglySorted_mono;
      [|apply (sorted_sorted _ rank_lt_asym rank_le_trans)].
    intros ??. apply rank_le_spec.
  - intros l r. apply sorted_stable.
    intros x y [Hv Ht] [Hv' Ht']. apply rank_tied_spec.
    split; congruence.
  - intros h1 h2 l h. subst h. unfold _sort_resources_obj, store in *.
    rewrite (list_lookup_middle h1 h2 l (length h1) eq_refl). simpl.
    split; [done |]. rewrite length_app. simpl. lia.
  - intros l. apply (sorted_idemp _ rank_lt_asym rank_le_trans).
  - reflexivity.
Qed.

(** ** Query *)

Lemma selects_elem_of {A} (P : A → Prop) l l' x :
  selects P l l' → x ∈ l' ↔ x ∈ l ∧ P x.
Proof.
  induction 1 as [|y l l' Hy _ IH|y l l' Hy _ IH].
  - split; [inversion 1 | intros [Hin _]; inversion Hin].
  - rewrite !elem_of_cons, IH. split; [|tauto].
    intros [->|?]; tauto.
  - rewrite elem_of_cons, IH. split; [tauto |].
    intros [[->|?] ?]; tauto.
Qed.

Lemma selects_sublist {A} (P : A → Prop) l l' :
  selects P l l' → l' `sublist_of` l.
Proof. induction 1; by constructor. Qed.

Lemma selects_functional {A} (P : A → Prop) l l1 l2 :
  selects P l l1 → selects P l l2 → l1 = l2.
Proof.
  intros H1; revert l2.
  induction H1 as [|x l l1 Hx _ IH|x l l1 Hx _ IH]; inversion 1; subst;
    try done; try (f_equal; auto); auto.
Qed.

Section query.
Context `{PyBuiltins}.

Lemma search_matches_spec query s :
  search_matches query s = true ↔ matches query s.
Proof.
  unfold search_matches, matches.
  rewrite !orb_true_iff, !str_in_substring. tauto.
Qed.

Lemma search_loop_app query results l :
  search_loop query results l = results ++ search_loop query [] l.
Proof.
  revert results; induction l as [|s l IH]; intros results; simpl.
  - by rewrite app_nil_r.
  - destruct (search_matches query s); [|done].
    by rewrite (IH (results ++ [s])), (IH [s]), <-(assoc_L (++)).
Qed.

Lemma search_loop_selects query l :
  selects (matches query) l (search_loop query [] l).
Proof.
  induction l as [|s l IH]; simpl; [constructor |].
  destruct (search_matches query s) eqn:Hs.
  - rewrite search_loop_app. simpl. constructor; [|done].
    by apply search_matches_spec.
  - constructor; [|done].
    by rewrite <-search_matches_spec, Hs.
Qed.

Lemma str_in_empty s : str_in [] s = true.
Proof. by destruct s. Qed.

Lemma search_loop_empty l : search_loop [] [] l = l.
Proof.
  induction l as [|s l IH]; simpl; [done |].
  unfold search_matches. rewrite str_in_empty. simpl.
  by rewrite search_loop_app, IH.
Qed.

Lemma search_run query w :
  search query w = (Ret (search_loop (lower query) [] (songs w)), w).
Proof. done. Qed.

(** C3: [search] returns exactly the songs of the collection for which
    the lower-cased query occurs in the lower-cased artist, song,
    artist_original or song_original, in collection order; the empty
    query returns every song; and the call leaves the collection, like
    the rest of the state, as it was. *)
Theorem search_exact :
  (∀ query w, ∃ results,
     search query w = (Ret results, w) ∧
     selects (matches (lower query)) (songs w) results) ∧
  (∀ w, search [] w = (Ret (songs w), w)).
Proof.
  split.
  - intros query w. eexists. split; [apply search_run |].
    apply search_loop_selects.
  - intros w. by rewrite search_run, lower_empty, search_loop_empty.
Qed.

End query.

(** ** Running the operations *)

Lemma bind_ret {A B} (m : M A) (f : A → M B) w a w' :
  m w = (Ret a, w') → (m ≫= f) w = f a w'.
Proof. intros Hm. unfold mbind, M_bind. by rewrite Hm. Qed.

Lemma bind_raise {A B} (m : M A) (f : A → M B) w e w' :
  m w = (Raise e, w') → (m ≫= f) w = (Raise e, w').
Proof. intros Hm. unfold mbind, M_bind. by rewrite Hm. Qed.

Lemma fmap_ret {A B} (m : M A) (f : A → B) w a w' :
  m w = (Ret a, w') → (f <$> m) w = (Ret (f a), w').
Proof. intros Hm. unfold fmap, M_fmap. by rewrite Hm. Qed.

Lemma bind_inv {A B} (m : M A) (f : A → M B) w o w' :
  (m ≫= f) w = (o, w') →
  (∃ a w1, m w = (Ret a, w1) ∧ f a w1 = (o, w')) ∨
  (∃ e, m w = (Raise e, w') ∧ o = Raise e) ∨
  (m w = (Untyped, w') ∧ o = Untyped).
Proof.
  unfold mbind at 1, M_bind. destruct (m w) as [[a|e|] w1]; intros Heq.
  - left. eauto.
  - right. left. exists e. by simplify_eq.
  - right. right. by simplify_eq.
Qed.

Lemma fmap_inv {A B} (m : M A) (f : A → B) w o w' :
  (f <$> m) w = (o, w') →
  (∃ a, m w = (Ret a, w') ∧ o = Ret (f a)) ∨
  (∃ e, m w = (Raise e, w') ∧ o = Raise e) ∨
  (m w = (Untyped, w') ∧ o = Untyped).
Proof.
  unfold fmap at 1, M_fmap. destruct (m w) as [[a|e|] w1]; intros Heq.
  - left. exists a. by simplify_eq.
  - right. left. exists e. by simplify_eq.
  - right. right. by simplify_eq.
Qed.

Lemma try_except_ret {A} (body : M A) catches handler w a w' :
  body w = (Ret a, w') → try_except body catches handler w = (Ret a, w').
Proof. intros Hb. unfold try_except. by rewrite Hb. Qed.

Lemma try_except_caught {A} (body : M A) catches handler w e w' :
  body w = (Raise e, w') → catches e = true →
  try_except body catches handler w = handler e w'.
Proof. intros Hb Hc. unfold try_except. by rewrite Hb, Hc. Qed.

Lemma try_except_uncaught {A} (body : M A) catches handler w e w' :
  body w = (Raise e, w') → catches e = false →
  try_except body catches handler w = (Raise e, w').
Proof. intros Hb Hc. unfold try_except. by rewrite Hb, Hc. Qed.

Lemma try_except_inv {A} (body : M A) catches handler w o w' :
  try_except body catches handler w = (o, w') →
  (∃ e w1, body w = (Raise e, w1) ∧ catches e = true ∧
           handler e w1 = (o, w')) ∨
  (body w = (o, w') ∧
   match o with Raise e => catches e = false | _ => True end).
Proof.
  unfold try_except. destruct (body w) as [[a|e|] w1] eqn:Hb.
  - intros [= <- <-]. by right.
  - destruct (catches e) eqn:Hc.
    + intros Hh. left. by exists e, w1.
    + intros [= <- <-]. by right.
  - intros [= <- <-]. by right.
Qed.

Tactic Notation "mstep" "by" tactic3(t) :=
  erewrite bind_ret by t; cbv beta iota.
Tactic Notation "mstep" := mstep by reflexivity.

Lemma print_run s w : print s w = (Ret tt, emits [Print s] w).
Proof. done. Qed.

Lemma input_run prompt w line rest :
  stdin w = line :: rest →
  input prompt w = (Ret line, set_stdin rest (emits [Prompt prompt] w)).
Proof. intros Hin. unfold input. by rewrite Hin. Qed.

Lemma input_eof prompt w :
  stdin w = [] → input prompt w = (Raise EOFError, emits [Prompt prompt] w).
Proof. intros Hin. unfold input. by rewrite Hin. Qed.

Lemma emits_emits evs1 evs2 w :
  emits evs2 (emits evs1 w) = emits (evs1 ++ evs2) w.
Proof. unfold emits. simpl. by rewrite (assoc_L (++)). Qed.

Lemma emits_set_stdin evs l w :
  emits evs (set_stdin l w) = set_stdin l (emits evs w).
Proof. done. Qed.

Lemma set_stdin_set_stdin l1 l2 w :
  set_stdin l2 (set_stdin l1 w) = set_stdin l2 w.
Proof. done. Qed.

Lemma for_enumerate_prints {A} start (l : list A) f w :
  for_enumerate start l (λ i x, print (f i x)) w
  = (Ret tt, emits (enum_prints start l f) w).
Proof.
  revert start w; induction l as [|x l IH]; intros start w; simpl.
  - unfold emits. rewrite app_nil_r. by destruct w.
  - mstep by apply print_run. by rewrite IH, emits_emits.
Qed.

Lemma enum_prints_console {A} start (l : list A) f :
  Forall console (enum_prints start l f).
Proof.
  revert start; induction l as [|x l IH]; intros start; simpl;
    by constructor.
Qed.

(** ** Store *)

Lemma new_Resource_asdict r w :
  new_Resource (asdict_Resource r) w = (Ret (Some r), w).
Proof. destruct r as [t u l v [c|]]; reflexivity. Qed.

Lemma new_Resources_asdict rs w :
  new_Resources (asdict_Resource <$> rs) w = (Ret (Some rs), w).
Proof.
  induction rs as [|r rs IH]; [done |].
  rewrite fmap_cons. cbn [new_Resources].
  mstep by apply new_Resource_asdict.
  mstep by apply IH. done.
Qed.

Lemma new_Song_asdict s w : new_Song (song_dict s) w = (Ret (Some s), w).
Proof.
  destruct s as [a n ao no rs]. unfold new_Song, song_dict.
  mstep. mstep. mstep by apply new_Resources_asdict.
  reflexivity.
Qed.

Lemma load_loop_saved typed l items w :
  load_loop typed ((song_dict <$> l) ++ items) w
  = load_loop typed items (set_songs (songs w ++ l) w).
Proof.
  revert w; induction l as [|s l IH]; intros w.
  - simpl. rewrite app_nil_r. by destruct w.
  - rewrite fmap_cons. cbn [app load_loop].
    mstep by apply new_Song_asdict.
    mstep. mstep.
    rewrite IH. simpl. by rewrite <-(assoc_L (++)).
Qed.

(** [load] of a file that [save] wrote. *)
Lemma load_saved l0 l inp tr :
  load (mkWorld l0 (Some (Document (save_data l))) inp tr)
  = (Ret tt, mkWorld l (Some (Document (save_data l))) inp tr).
Proof.
  unfold load. cbn [disk]. apply try_except_ret.
  mstep. mstep. mstep.
  rewrite <-(app_nil_r (song_dict <$> l)).
  mstep by (rewrite load_loop_saved; reflexivity).
  done.
Qed.


(** A document that is not JSON is reported and leaves an empty
    collection. *)
Lemma load_not_json w msg :
  disk w = Some (NotJson msg) →
  load w = (Ret tt, set_songs [] (emits
    [Print (lit "Error loading database: " ++ msg)] w)).
Proof. intros Hdisk. unfold load. by rewrite Hdisk. Qed.

(** So is a song record without one of its four names, when the songs
    before it are as [save] writes them. *)
Lemma load_song_without_field w l song_data rest key :
  disk w = Some (Document (JList ((song_dict <$> l) ++ song_data :: rest))) →
  (∀ w', new_Song song_data w' = (Raise (KeyError key), w')) →
  load w = (Ret tt, set_songs [] (emits
    [Print (lit "Error loading database: " ++ lit "'" ++ key ++ lit "'")] w)).
Proof.
  intros Hdisk Hsong. unfold load. rewrite Hdisk.
  erewrite try_except_caught; cycle 1.
  - mstep. mstep. mstep.
    erewrite bind_raise; [reflexivity |].
    rewrite load_loop_saved. cbn [load_loop].
    erewrite bind_raise by apply Hsong. reflexivity.
  - reflexivity.
  - mstep by apply print_run. by destruct w.
Qed.

(** C5: [load] does not reset the collection for every deficient
    document.  A resource record without its type, with a field the
    dataclass does not have, or that is no object at all, and a document
    that is no array of objects make [load] raise an exception that its
    [except] clause does not name; the exception leaves [load] and no
    message is printed. *)
Theorem load_deficient_resource_raises inp :
  let song_with (res : json) :=
    JList [JDict [ (lit "artist", JStr (lit "A")); (lit "song", JStr (lit "S"));
                   (lit "artist_original", JStr (lit "A"));
                   (lit "song_original", JStr (lit "S"));
                   (lit "resources", JList [res]) ]] in
  let start (doc : json) := mkWorld [] (Some (Document doc)) inp [] in
  let without_type :=
    song_with (JDict [ (lit "url", JStr (lit "u"));
                       (lit "language", JStr (lit "en")) ]) in
  let extra_field :=
    song_with (JDict [ (lit "type", JStr (lit "t")); (lit "url", JStr (lit "u"));
                       (lit "language", JStr (lit "en"));
                       (lit "rating", JInt 5) ]) in
  let no_object := song_with (JInt 5) in
  load (start without_type) = (Raise TypeError, start without_type) ∧
  load (start extra_field) = (Raise TypeError, start extra_field) ∧
  load (start no_object) = (Raise TypeError, start no_object) ∧
  load (start (JInt 5)) = (Raise TypeError, start (JInt 5)) ∧
  load (start (JList [JInt 5])) = (Raise AttributeError, start (JList [JInt 5])).
Proof. repeat split. Qed.

(** ** Talking to the user leaves collection and file alone *)

Lemma quiet_refl w : quiet w w.
Proof.
  split_and!; [done.. |]. exists []. by rewrite app_nil_r.
Qed.

Lemma quiet_trans w1 w2 w3 : quiet w1 w2 → quiet w2 w3 → quiet w1 w3.
Proof.
  intros (Hs1 & Hd1 & evs1 & Ht1 & He1) (Hs2 & Hd2 & evs2 & Ht2 & He2).
  split_and!; [congruence.. |]. exists (evs1 ++ evs2).
  split; [by rewrite Ht2, Ht1, (assoc_L (++)) | by apply Forall_app].
Qed.

Lemma quiet_emits evs w : Forall console evs → quiet w (emits evs w).
Proof. intros Hevs. split_and!; [done.. |]. by exists evs. Qed.

Lemma quiet_set_stdin l w : quiet w (set_stdin l w).
Proof. apply (quiet_refl (set_stdin l w)). Qed.

Lemma quiet_last w w' e :
  quiet w w' → last (trace w') = Some e → last (trace w) = Some e ∨ console e.
Proof.
  intros (_ & _ & evs & -> & Hevs). rewrite last_app.
  destruct (last evs) as [e'|] eqn:Hlast; [|auto].
  intros [= ->]. right.
  apply last_Some in Hlast as [evs' ->].
  by apply Forall_app in Hevs as [_ [? _]%Forall_cons].
Qed.

(** ** Add song *)

Section add_song.
Context `{PyBuiltins}.

Lemma add_song_blank_artist w line rest :
  stdin w = line :: rest → strip line = [] →
  add_song w = (Ret tt, set_stdin rest (emits
    [Print (nl ++ lit "=== Add New Song ==="); Prompt (lit "Artist name: ");
     Print (lit "Artist name is required.")] w)).
Proof.
  intros Hin Hblank. unfold add_song.
  mstep by apply print_run.
  mstep by (apply fmap_ret, input_run; exact Hin).
  rewrite Hblank, bool_decide_eq_true_2 by done. rewrite print_run.
  by rewrite emits_set_stdin, !emits_emits.
Qed.

Lemma add_song_blank_song w a ao s rest :
  stdin w = a :: ao :: s :: rest → strip a ≠ [] → strip s = [] →
  add_song w = (Ret tt, set_stdin rest (emits
    [Print (nl ++ lit "=== Add New Song ==="); Prompt (lit "Artist name: ");
     Prompt (lit "Original artist name [" ++ strip a ++ lit "]: ");
     Prompt (lit "Song name: ");
     Print (lit "Song name is required.")] w)).
Proof.
  intros Hin Hartist Hblank. unfold add_song.
  mstep by apply print_run.
  mstep by (apply fmap_ret, input_run; exact Hin).
  rewrite bool_decide_eq_false_2 by done.
  mstep by (apply fmap_ret, input_run; reflexivity).
  mstep by (apply fmap_ret, input_run; reflexivity).
  rewrite Hblank, bool_decide_eq_true_2 by done. rewrite print_run.
  by rewrite !emits_set_stdin, !set_stdin_set_stdin, !emits_emits.
Qed.

(** C7: when the artist name, or the song name after a proper artist
    name, is blank after stripping, [add_song] prints that the name is
    required and returns; the collection is the one it started with (no
    song appended) and nothing was saved. *)
Theorem add_song_blank_rejected w :
  blank_name (stdin w) →
  ∃ w' msg,
    add_song w = (Ret tt, w') ∧
    songs w' = songs w ∧
    quiet w w' ∧
    last (trace w') = Some (Print msg) ∧
    (msg = lit "Artist name is required." ∨ msg = lit "Song name is required.").
Proof.
  intros Hblank. inversion Hblank as [line rest Hline Hin|a ao s rest Ha Hs Hin].
  - eexists _, _. split; [by eapply add_song_blank_artist |].
    split_and!; [done | | by cbn; rewrite last_app | by left].
    apply (quiet_emits _ w). by repeat constructor.
  - eexists _, _. split; [by eapply add_song_blank_song |].
    split_and!; [done | | by cbn; rewrite last_app | by right].
    apply (quiet_emits _ w). by repeat constructor.
Qed.

End add_song.

(** The witness for C7: a line of spaces as artist name. *)
Lemma add_song_blank_rejected_witness :
  blank_name (stdin (mkWorld [] None [lit "  "] [])) ∧
  ∃ w' msg,
    add_song (mkWorld [] None [lit "  "] []) = (Ret tt, w') ∧
    songs w' = [] ∧
    quiet (mkWorld [] None [lit "  "] []) w' ∧
    last (trace w') = Some (Print msg) ∧
    (msg = lit "Artist name is required." ∨ msg = lit "Song name is required.").
Proof.
  assert (blank_name (stdin (mkWorld [] None [lit "  "] []))) as Hblank.
  { by apply blank_artist. }
  split; [exact Hblank |].
  exact (add_song_blank_rejected (mkWorld [] None [lit "  "] []) Hblank).
Defined.

(** ** Vote *)

Lemma pair_inv {A B} (a a' : A) (b b' : B) :
  (a, b) = (a', b') → a = a' ∧ b = b'.
Proof. by intros [= -> ->]. Qed.

Lemma find_first_Some {A} (p : A → bool) i l j x :
  find_first p i l = Some (j, x) →
  ∃ m, j = (i + m)%nat ∧ l !! m = Some x ∧ p x = true ∧
       ∀ m' y, (m' < m)%nat → l !! m' = Some y → p y = false.
Proof.
  revert i; induction l as [|y l IH]; intros i; simpl; [done |].
  destruct (p y) eqn:Hy.
  - intros [= <- <-]. exists 0%nat. split_and!; [lia | done.. |].
    intros; lia.
  - intros (m & -> & Hm & Hx & Hfirst)%IH. exists (S m).
    split_and!; [lia | done.. |].
    intros [|m'] z Hlt; simpl; [by intros [= <-] |].
    apply Hfirst. lia.
Qed.

Lemma find_first_elem_of {A} (p : A → bool) i l x :
  x ∈ l → p x = true → is_Some (find_first p i l).
Proof.
  intros Hin Hx. revert i.
  induction l as [|y l IH]; intros i; simpl; [by apply elem_of_nil in Hin |].
  apply elem_of_cons in Hin as [<-|Hin].
  - rewrite Hx. by eexists.
  - destruct (p y); [by eexists | by apply IH].
Qed.

Lemma alter_insert {A} (f : A → A) (i : nat) (l : list A) x :
  l !! i = Some x → alter f i l = <[i := f x]> l.
Proof.
  revert i; induction l as [|y l IH]; intros [|i]; simpl; try done.
  - by intros [= ->].
  - intros Hi. f_equal. by apply IH.
Qed.

Lemma incr_votes_insert (i k : nat) (l : list Song) s r :
  l !! i = Some s → resources s !! k = Some r →
  incr_votes i k l = <[i := upvoted s k r]> l.
Proof.
  intros Hs Hr. unfold incr_votes.
  rewrite (alter_insert _ _ _ _ Hs). unfold upvoted.
  by rewrite (alter_insert _ _ _ _ Hr).
Qed.

Lemma same_resource_refl r : same_resource r r = true.
Proof.
  unfold same_resource. apply andb_true_iff. by rewrite !str_eqb_eq.
Qed.

Lemma same_song_refl s : same_song s s = true.
Proof. unfold same_song. apply andb_true_iff. by rewrite !str_eqb_eq. Qed.

Section vote.
Context `{PyBuiltins}.

Lemma vote_resource_loop_run i sel k rest w :
  vote_resource_loop i sel k rest w =
  match find_first (λ r, same_resource r sel) k rest with
  | Some (k', r) => (Ret true, voted_world i k' r w)
  | None => (Ret false, w)
  end.
Proof.
  revert k; induction rest as [|r rest IH]; intros k; simpl; [done |].
  unfold same_resource at 1.
  destruct (str_eqb (type r) (type sel) && str_eqb (url r) (url sel)).
  - mstep. mstep. mstep. mstep by apply print_run.
    unfold voted_world, save, emits, emit. cbn. by rewrite <-(assoc_L (++)).
  - apply IH.
Qed.

Lemma vote_song_body_no_resources i s w :
  resources s = [] →
  vote_song_body i s w
  = (Ret true, emits [Print (lit "This song has no resources.")] w).
Proof.
  intros Hs. unfold vote_song_body.
  rewrite bool_decide_eq_true_2 by done. by mstep by apply print_run.
Qed.

Lemma vote_song_body_menu i s w :
  resources s ≠ [] →
  vote_song_body i s w =
  (line ← input (lit "Select resource to upvote: ");
   match py_int line with
   | None => raise ValueError
   | Some n =>
       if negb ((0 <=? n - 1) && (n - 1 <? len (_sort_resources (resources s))))
       then print (lit "Invalid selection.");; mret true
       else
         match _sort_resources (resources s) !! Z.to_nat (n - 1) with
         | None => raise IndexError
         | Some selected_resource =>
             vote_resource_loop i selected_resource 0 (resources s)
         end
   end) (emits (resource_menu s) w).
Proof.
  intros Hs. unfold vote_song_body.
  rewrite bool_decide_eq_false_2 by done.
  mstep by apply print_run.
  mstep by apply for_enumerate_prints.
  by rewrite emits_emits.
Qed.

Lemma vote_song_body_eof i s w :
  resources s ≠ [] → stdin w = [] →
  vote_song_body i s w
  = (Raise EOFError,
     emits (resource_menu s ++ [Prompt (lit "Select resource to upvote: ")]) w).
Proof.
  intros Hs Hin. rewrite vote_song_body_menu by done.
  erewrite bind_raise by (by apply input_eof).
  by rewrite emits_emits.
Qed.

Lemma vote_song_body_read i s w line rest :
  resources s ≠ [] → stdin w = line :: rest →
  vote_song_body i s w =
  match py_int line with
  | None => (Raise ValueError, resource_chosen w s rest)
  | Some n =>
      if negb ((0 <=? n - 1) && (n - 1 <? len (_sort_resources (resources s))))
      then (Ret true,
            emits [Print (lit "Invalid selection.")] (resource_chosen w s rest))
      else
        match _sort_resources (resources s) !! Z.to_nat (n - 1) with
        | None => (Raise IndexError, resource_chosen w s rest)
        | Some selected_resource =>
            vote_resource_loop i selected_resource 0 (resources s)
              (resource_chosen w s rest)
        end
  end.
Proof.
  intros Hs Hin. rewrite vote_song_body_menu by done.
  mstep by (by apply input_run).
  rewrite emits_emits. fold (resource_chosen w s rest).
  destruct (py_int line) as [n|]; [|done].
  destruct (negb _).
  - by mstep by apply print_run.
  - by destruct (_ !! _).
Qed.

Lemma choice_in_range (n : Z) (m : nat) :
  negb ((0 <=? n - 1) && (n - 1 <? Z.of_nat m)) = false ↔ 1 ≤ n ≤ Z.of_nat m.
Proof.
  rewrite negb_false_iff, andb_true_iff, Z.leb_le, Z.ltb_lt. lia.
Qed.

Lemma choice_lookup {A} (n : Z) (l : list A) :
  1 ≤ n ≤ Z.of_nat (length l) → is_Some (l !! Z.to_nat (n - 1)).
Proof. intros Hn. apply lookup_lt_is_Some. lia. Qed.

Lemma vote_song_body_not_int i s w line rest :
  resources s ≠ [] → stdin w = line :: rest → py_int line = None →
  vote_song_body i s w = (Raise ValueError, resource_chosen w s rest).
Proof.
  intros Hs Hin Hint. rewrite (vote_song_body_read _ _ _ line rest) by done.
  by rewrite Hint.
Qed.

Lemma vote_song_body_out_of_range i s w line rest n :
  resources s ≠ [] → stdin w = line :: rest → py_int line = Some n →
  ¬ (1 ≤ n ≤ Z.of_nat (length (resources s))) →
  vote_song_body i s w
  = (Ret true,
     emits [Print (lit "Invalid selection.")] (resource_chosen w s rest)).
Proof.
  intros Hs Hin Hint Hn. rewrite (vote_song_body_read _ _ _ line rest) by done.
  rewrite Hint. unfold len. rewrite sort_resources_length.
  destruct (negb _) eqn:Hrange; [done |].
  by apply choice_in_range in Hrange.
Qed.

Lemma vote_song_body_vote i s w line rest n selr k0 r0 :
  stdin w = line :: rest → py_int line = Some n → 1 ≤ n →
  _sort_resources (resources s) !! Z.to_nat (n - 1) = Some selr →
  find_first (λ r, same_resource r selr) 0 (resources s) = Some (k0, r0) →
  vote_song_body i s w
  = (Ret true, voted_world i k0 r0 (resource_chosen w s rest)).
Proof.
  intros Hin Hint Hn Hsel Hfirst.
  assert (resources s ≠ []) as Hs.
  { intros Hnil. by rewrite Hnil in Hfirst. }
  rewrite (vote_song_body_read _ _ _ line rest) by done.
  rewrite Hint, Hsel.
  apply lookup_lt_Some in Hsel as Hlt.
  replace (negb _) with false.
  - by rewrite vote_resource_loop_run, Hfirst.
  - symmetry. apply choice_in_range. unfold len. lia.
Qed.

(** A resource of the ranked list is always found again in the stored
    list. *)
Lemma ranked_resource_found s m selr :
  _sort_resources (resources s) !! m = Some selr →
  ∃ k0 r0,
    find_first (λ r, same_resource r selr) 0 (resources s) = Some (k0, r0).
Proof.
  intros Hsel.
  destruct (find_first_elem_of (λ r, same_resource r selr) 0%nat
              (resources s) selr) as [[k0 r0] Hfirst].
  - apply sort_resources_elem_of. by eapply list_elem_of_lookup_2.
  - apply same_resource_refl.
  - eauto.
Qed.

(** The body always ends in [return]: the loop over the songs never
    visits a second song. *)
Lemma vote_song_body_returns i s w b w' :
  vote_song_body i s w = (Ret b, w') → b = true.
Proof.
  destruct (decide (resources s = [])) as [Hs|Hs].
  { rewrite vote_song_body_no_resources by done. by intros [= <- _]. }
  destruct (stdin w) as [|line rest] eqn:Hin.
  { by rewrite vote_song_body_eof. }
  rewrite (vote_song_body_read _ _ _ line rest) by done.
  destruct (py_int line) as [n|]; [|done].
  destruct (negb _); [by intros [= <- _] |].
  destruct (_ !! _) as [selr|] eqn:Hsel; [|done].
  destruct (ranked_resource_found _ _ _ Hsel) as (k0 & r0 & Hfirst).
  rewrite vote_resource_loop_run, Hfirst. by intros [= <- _].
Qed.

Lemma vote_song_loop_run sel i rest w :
  vote_song_loop sel i rest w =
  match find_first (λ s, same_song s sel) i rest with
  | Some (i', s') => (vote_song_body i' s' ≫= λ _, mret tt) w
  | None => (Ret tt, w)
  end.
Proof.
  revert i; induction rest as [|s rest IH]; intros i; simpl; [done |].
  unfold same_song at 1.
  destruct (str_eqb (artist s) (artist sel) && str_eqb (song s) (song sel));
    [|apply IH].
  unfold mbind, M_bind.
  destruct (vote_song_body i s w) as [[b| |] w'] eqn:Hbody; [|done..].
  by rewrite (vote_song_body_returns _ _ _ _ _ Hbody).
Qed.

Lemma try_except_bind {A B} (m : M A) (f : A → M B) catches handler w a w' :
  m w = (Ret a, w') →
  try_except (m ≫= f) catches handler w = try_except (f a) catches handler w'.
Proof. intros Hm. unfold try_except. by erewrite bind_ret. Qed.

(** [vote_on_resource] from the start to the answer at the song menu. *)
Lemma vote_on_resource_read w results line rest :
  at_song_step w results line rest →
  vote_on_resource w =
  match py_int line with
  | None =>
      (Ret tt, emits [Print (lit "Please enter a valid number.")]
                 (song_chosen w results rest))
  | Some n =>
      if negb ((0 <=? n - 1) && (n - 1 <? len results))
      then (Ret tt, emits [Print (lit "Invalid selection.")]
                      (song_chosen w results rest))
      else
        match results !! Z.to_nat (n - 1) with
        | None => (Raise IndexError, song_chosen w results rest)
        | Some selected_song =>
            try_except (vote_song_loop selected_song 0 (songs w))
              catches_ValueError
              (λ _, print (lit "Please enter a valid number."))
              (song_chosen w results rest)
        end
  end.
Proof.
  intros (Hsongs & q & Hin & Hquery & Hresults & Hfound).
  unfold vote_on_resource.
  mstep. rewrite bool_decide_eq_false_2 by done.
  mstep by (by apply fmap_ret, input_run).
  rewrite bool_decide_eq_false_2 by done.
  mstep by apply search_run. cbn [songs set_stdin emits].
  rewrite <-Hresults, bool_decide_eq_false_2 by done.
  mstep by apply print_run.
  mstep by apply for_enumerate_prints.
  erewrite try_except_bind by (by apply input_run).
  rewrite !emits_emits, !emits_set_stdin, set_stdin_set_stdin, !emits_emits.
  change (set_stdin rest (emits _ w)) with (song_chosen w results rest).
  destruct (py_int line) as [n|]; [|done].
  destruct (negb _).
  - done.
  - destruct (_ !! _) as [sel|] eqn:Hsel; [|done].
    unfold try_except. by mstep.
Qed.

(** After a valid song number the function runs the body once, for the
    first song with the artist and name of the selection. *)
Lemma vote_on_resource_relocates w results line rest n sel i0 s0 :
  at_song_step w results line rest →
  py_int line = Some n → 1 ≤ n →
  results !! Z.to_nat (n - 1) = Some sel →
  relocated w sel i0 s0 →
  vote_on_resource w =
  try_except (vote_song_body i0 s0 ≫= λ _, mret tt)
    catches_ValueError
    (λ _, print (lit "Please enter a valid number."))
    (song_chosen w results rest).
Proof.
  intros Hstep Hint Hn Hsel Hfirst.
  rewrite (vote_on_resource_read _ _ _ _ Hstep), Hint, Hsel.
  apply lookup_lt_Some in Hsel as Hlt.
  replace (negb _) with false
    by (symmetry; apply choice_in_range; unfold len; lia).
  unfold try_except. by rewrite vote_song_loop_run, Hfirst.
Qed.

Lemma song_menu_console results : Forall console (song_menu results).
Proof.
  unfold song_menu. repeat (apply Forall_app; split);
    repeat constructor; apply enum_prints_console.
Qed.

Lemma resource_menu_console s : Forall console (resource_menu s).
Proof. constructor; [done | apply enum_prints_console]. Qed.

Lemma quiet_song_chosen w results rest : quiet w (song_chosen w results rest).
Proof. apply (quiet_emits _ w), song_menu_console. Qed.

Lemma quiet_resource_chosen w s rest : quiet w (resource_chosen w s rest).
Proof.
  apply (quiet_emits _ w), Forall_app.
  split; [apply resource_menu_console | by repeat constructor].
Qed.

Lemma quiet_print w w' s : quiet w w' → quiet w (emits [Print s] w').
Proof.
  intros Hq. eapply quiet_trans; [exact Hq |].
  apply quiet_emits. by repeat constructor.
Qed.

Lemma quiet_not_added w w' : quiet w w' → ¬ vote_added w w'.
Proof.
  intros (_ & _ & evs & Ht & Hevs) (evs' & data & n & Heq).
  rewrite Ht in Heq. apply app_inv_head in Heq as ->.
  apply Forall_app in Hevs as [_ Hevs].
  by apply Forall_cons in Hevs as [? _].
Qed.

(** The state after a counted vote, seen from the state [w] in which
    [vote_on_resource] started. *)
Lemma voted_world_spec i k r s w w1 :
  quiet w w1 → songs w !! i = Some s → resources s !! k = Some r →
  songs (voted_world i k r w1) = <[i := upvoted s k r]> (songs w) ∧
  disk (voted_world i k r w1)
    = Some (Document (save_data (songs (voted_world i k r w1)))) ∧
  ∃ evs,
    Forall console evs ∧
    trace (voted_world i k r w1)
    = trace w ++ evs ++ [Write (save_data (songs (voted_world i k r w1)));
                         Print (vote_added_msg (votes r + 1))].
Proof.
  intros (Hsongs & _ & evs & Htrace & Hevs) Hs Hr. cbn.
  rewrite Hsongs, (incr_votes_insert _ _ _ _ _ Hs Hr).
  split_and!; [done.. |]. exists evs.
  by rewrite Htrace, <-(assoc_L (++)).
Qed.

(** What the body can do, with the handler of [vote_on_resource] around
    it: talk, or count one vote for a resource of its song. *)
Lemma vote_song_body_effect i s w o w' :
  try_except (vote_song_body i s ≫= λ _, mret tt) catches_ValueError
    (λ _, print (lit "Please enter a valid number.")) w = (o, w') →
  quiet w w' ∨
  ∃ k r w1, resources s !! k = Some r ∧ quiet w w1 ∧
            o = Ret tt ∧ w' = voted_world i k r w1.
Proof.
  unfold try_except.
  destruct (decide (resources s = [])) as [Hs|Hs].
  { mstep by (by apply vote_song_body_no_resources).
    intros [<- <-]%pair_inv. left. apply quiet_print, quiet_refl. }
  destruct (stdin w) as [|line rest] eqn:Hin.
  { erewrite bind_raise by (by apply vote_song_body_eof).
    intros [<- <-]%pair_inv. left. apply quiet_emits, Forall_app.
    split; [apply resource_menu_console | by repeat constructor]. }
  unfold mbind, M_bind.
  rewrite (vote_song_body_read _ _ _ line rest) by done.
  destruct (py_int line) as [n|].
  2:{ intros [<- <-]%pair_inv. left. apply quiet_print, quiet_resource_chosen. }
  destruct (negb _).
  { intros [<- <-]%pair_inv. left. apply quiet_print, quiet_resource_chosen. }
  destruct (_ !! _) as [selr|] eqn:Hsel.
  2:{ intros [<- <-]%pair_inv. left. apply quiet_resource_chosen. }
  rewrite vote_resource_loop_run.
  destruct (find_first _ _ _) as [[k0 r0]|] eqn:Hfirst.
  2:{ intros [<- <-]%pair_inv. left. apply quiet_resource_chosen. }
  intros [<- <-]%pair_inv. right.
  apply find_first_Some in Hfirst as (m & -> & Hr0 & _).
  exists m, r0, (resource_chosen w s rest).
  split_and!; [done | apply quiet_resource_chosen | done..].
Qed.

(** The body shows the ranked resources of its song before anything
    else, unless the song has none. *)
Lemma vote_song_body_shows i s w o w' :
  resources s ≠ [] →
  try_except (vote_song_body i s ≫= λ _, mret tt) catches_ValueError
    (λ _, print (lit "Please enter a valid number.")) w = (o, w') →
  ∃ evs, trace w' = trace w ++ resource_menu s ++ evs.
Proof.
  intros Hs. unfold try_except.
  destruct (stdin w) as [|line rest] eqn:Hin.
  { erewrite bind_raise by (by apply vote_song_body_eof).
    intros [<- <-]%pair_inv. by eexists. }
  unfold mbind, M_bind.
  rewrite (vote_song_body_read _ _ _ line rest) by done.
  assert (∀ evs w1, trace w1 = trace (resource_chosen w s rest) ++ evs →
    ∃ evs', trace w1 = trace w ++ resource_menu s ++ evs') as Hshow.
  { intros evs w1 ->. eexists.
    unfold resource_chosen, emits, set_stdin. cbn [trace].
    by rewrite <-!(assoc_L (++)). }
  destruct (py_int line) as [n|].
  2:{ intros [<- <-]%pair_inv. by eapply Hshow. }
  destruct (negb _).
  { intros [<- <-]%pair_inv. by eapply Hshow. }
  destruct (_ !! _) as [selr|] eqn:Hsel.
  2:{ intros [<- <-]%pair_inv. apply (Hshow []). by rewrite app_nil_r. }
  rewrite vote_resource_loop_run.
  destruct (find_first _ _ _) as [[k0 r0]|] eqn:Hfirst;
    intros [<- <-]%pair_inv.
  - by eapply Hshow.
  - apply (Hshow []). by rewrite app_nil_r.
Qed.

Lemma fmap_raise {A B} (m : M A) (f : A → B) w e w' :
  m w = (Raise e, w') → (f <$> m) w = (Raise e, w').
Proof. intros Hm. unfold fmap, M_fmap. by rewrite Hm. Qed.

(** Every run of [vote_on_resource] either only talks to the user or
    counts one vote. *)
Lemma vote_on_resource_effect w o w' :
  vote_on_resource w = (o, w') →
  quiet w w' ∨
  ∃ i k s r w1, songs w !! i = Some s ∧ resources s !! k = Some r ∧
                quiet w w1 ∧ o = Ret tt ∧ w' = voted_world i k r w1.
Proof.
  destruct (decide (songs w = [])) as [Hsongs|Hsongs].
  { unfold vote_on_resource. mstep.
    rewrite bool_decide_eq_true_2 by done.
    intros [<- <-]%pair_inv. left. apply quiet_print, quiet_refl. }
  destruct (stdin w) as [|q rest1] eqn:Hin.
  { unfold vote_on_resource. mstep.
    rewrite bool_decide_eq_false_2 by done.
    erewrite bind_raise by (by apply fmap_raise, input_eof).
    intros [<- <-]%pair_inv. left. apply quiet_emits. by repeat constructor. }
  destruct (decide (lower (strip q) = [])) as [Hq|Hq].
  { unfold vote_on_resource. mstep.
    rewrite bool_decide_eq_false_2 by done.
    mstep by (by apply fmap_ret, input_run).
    rewrite bool_decide_eq_true_2 by done.
    intros [<- <-]%pair_inv. left.
    apply (quiet_emits _ w). by repeat constructor. }
  destruct (decide (search_loop (lower (lower (strip q))) [] (songs w) = []))
    as [Hres|Hres].
  { unfold vote_on_resource. mstep.
    rewrite bool_decide_eq_false_2 by done.
    mstep by (by apply fmap_ret, input_run).
    rewrite bool_decide_eq_false_2 by done.
    mstep by apply search_run.
    rewrite bool_decide_eq_true_2 by done.
    intros [<- <-]%pair_inv. left.
    apply quiet_print, (quiet_emits _ w). by repeat constructor. }
  destruct rest1 as [|line rest].
  { unfold vote_on_resource. mstep.
    rewrite bool_decide_eq_false_2 by done.
    mstep by (by apply fmap_ret, input_run).
    rewrite bool_decide_eq_false_2 by done.
    mstep by apply search_run.
    rewrite bool_decide_eq_false_2 by done.
    mstep by apply print_run.
    mstep by apply for_enumerate_prints.
    erewrite try_except_uncaught;
      [|by erewrite bind_raise by (by apply input_eof)|done].
    intros [<- <-]%pair_inv. left.
    rewrite !emits_emits, !emits_set_stdin, !emits_emits.
    apply (quiet_emits _ w). repeat (apply Forall_app; split);
      repeat constructor; apply enum_prints_console. }
  assert (at_song_step w (search_loop (lower (lower (strip q))) [] (songs w))
            line rest) as Hstep.
  { split; [done |]. by exists q. }
  rewrite (vote_on_resource_read _ _ _ _ Hstep).
  set (results := search_loop _ _ _) in *.
  destruct (py_int line) as [n|].
  2:{ intros [<- <-]%pair_inv. left. apply quiet_print, quiet_song_chosen. }
  destruct (negb _).
  { intros [<- <-]%pair_inv. left. apply quiet_print, quiet_song_chosen. }
  destruct (_ !! _) as [sel|] eqn:Hsel.
  2:{ intros [<- <-]%pair_inv. left. apply quiet_song_chosen. }
  destruct (find_first (λ s, same_song s sel) 0 (songs w))
    as [[i0 s0]|] eqn:Hfirst.
  2:{ unfold try_except. rewrite vote_song_loop_run.
      cbn [songs song_chosen set_stdin emits]. rewrite Hfirst.
      intros [<- <-]%pair_inv. left. apply quiet_song_chosen. }
  intros Hrun.
  assert (try_except (vote_song_body i0 s0 ≫= λ _, mret tt) catches_ValueError
            (λ _, print (lit "Please enter a valid number."))
            (song_chosen w results rest) = (o, w')) as Hbody.
  { rewrite <-Hrun. unfold try_except. rewrite vote_song_loop_run.
    cbn [songs song_chosen set_stdin emits]. by rewrite Hfirst. }
  apply find_first_Some in Hfirst as (m & -> & Hs0 & _).
  apply vote_song_body_effect in Hbody
    as [Hquiet|(k & r & w1 & Hr & Hquiet & -> & ->)].
  - left. eapply quiet_trans; [apply quiet_song_chosen | done].
  - right. exists m, k, s0, r, w1. split_and!; [done.. | | done | done].
    eapply quiet_trans; [apply quiet_song_chosen | done].
Qed.

Lemma votes_at_voted_at (i k i' k' : nat) (l l' : list Song) :
  voted_at i' k' l l' →
  votes_at i k l' =
  if decide (i = i' ∧ k = k') then Z.succ <$> votes_at i k l
  else votes_at i k l.
Proof.
  intros (s & r & Hs & Hr & ->). unfold votes_at.
  destruct (decide (i = i')) as [->|Hi].
  - rewrite list_lookup_insert_eq by (by eapply lookup_lt_Some).
    rewrite Hs. cbn [mbind option_bind upvoted resources].
    destruct (decide (k = k')) as [->|Hk].
    + rewrite list_lookup_insert_eq by (by eapply lookup_lt_Some).
      rewrite Hr, decide_True by done. done.
    + rewrite list_lookup_insert_ne by done.
      rewrite decide_False by (intros [_ ?]; done). done.
  - rewrite list_lookup_insert_ne by done.
    rewrite decide_False by (intros [? _]; done). done.
Qed.

Lemma vote_added_counts w o w' :
  vote_on_resource w = (o, w') → vote_added w w' →
  ∃ i k, voted_at i k (songs w) (songs w').
Proof.
  intros Hrun Hadded.
  apply vote_on_resource_effect in Hrun
    as [Hquiet|(i & k & s & r & w1 & Hs & Hr & Hquiet & -> & ->)].
  - by destruct (quiet_not_added _ _ Hquiet).
  - exists i, k, s, r. split_and!; [done.. |].
    by destruct (voted_world_spec _ _ _ _ _ _ Hquiet Hs Hr) as [-> _].
Qed.

(** C4: when [vote_on_resource] ends with a saved and confirmed vote, the
    collection differs from the one before in the vote counter of one
    resource of one song, which is higher by one; every other song and
    resource, every other field and every position is as before.  After
    [n] further successful votes for that resource its counter is
    [1 + n] above the first value. *)
Theorem vote_counts_once w o w' :
  vote_on_resource w = (o, w') → vote_added w w' →
  ∃ i k,
    voted_at i k (songs w) (songs w') ∧
    votes_at i k (songs w') = Z.succ <$> votes_at i k (songs w) ∧
    ∀ n w'', voted_times i k w' n w'' →
      votes_at i k (songs w'')
      = (λ v, v + 1 + Z.of_nat n) <$> votes_at i k (songs w).
Proof.
  intros Hrun Hadded.
  destruct (vote_added_counts _ _ _ Hrun Hadded) as (i & k & Hvoted).
  exists i, k. split; [done |].
  assert (votes_at i k (songs w') = Z.succ <$> votes_at i k (songs w))
    as Hone.
  { rewrite (votes_at_voted_at _ _ _ _ _ _ Hvoted). by rewrite decide_True. }
  split; [done |].
  intros n w'' Htimes.
  induction Htimes as [|n wa inp o' wb Htimes IH Hrun' Hadded' Hchanged].
  - rewrite Hone. destruct (votes_at i k (songs w)); [|done].
    cbn. f_equal. lia.
  - destruct (vote_added_counts _ _ _ Hrun' Hadded') as (i' & k' & Hvoted').
    cbn [songs set_stdin] in Hvoted'.
    rewrite (votes_at_voted_at i k _ _ _ _ Hvoted') in Hchanged |- *.
    destruct (decide (i = i' ∧ k = k')); [|done].
    rewrite IH. destruct (votes_at i k (songs w)); [|done].
    cbn. f_equal. lia.
Qed.

Lemma last_emits e w : last (trace (emits [e] w)) = Some e.
Proof. cbn [trace emits]. by rewrite last_snoc. Qed.

(** C6: an answer that [int] rejects or a number outside 1..n, at the
    song menu or at the resource menu, makes [vote_on_resource] print a
    message and return; collection and file are as before and nothing
    was saved. *)
Theorem vote_bad_selection_rejected w :
  bad_selection w →
  ∃ w' msg,
    vote_on_resource w = (Ret tt, w') ∧
    quiet w w' ∧
    last (trace w') = Some (Print msg) ∧
    (msg = lit "Invalid selection." ∨ msg = lit "Please enter a valid number.").
Proof.
  intros [results line rest Hstep Hbad|i s line rest Hstep Hbad].
  - rewrite (vote_on_resource_read _ _ _ _ Hstep).
    unfold bad_choice in Hbad. destruct (py_int line) as [c|].
    + destruct (negb _) eqn:Hrange;
        [|by apply choice_in_range in Hrange].
      eexists _, _. split; [done |].
      split_and!; [|apply last_emits | by left].
      apply quiet_print, quiet_song_chosen.
    + eexists _, _. split; [done |].
      split_and!; [|apply last_emits | by right].
      apply quiet_print, quiet_song_chosen.
  - destruct Hstep as (results & line1 & n & sel & Hstep & Hint & Hn & Hsel
                       & Hrel & Hres).
    rewrite (vote_on_resource_relocates _ _ _ _ _ _ _ _ Hstep Hint Hn Hsel Hrel).
    assert (quiet w (resource_chosen (song_chosen w results (line :: rest)) s rest))
      as Hquiet.
    { eapply quiet_trans; [apply quiet_song_chosen | apply quiet_resource_chosen]. }
    unfold bad_choice in Hbad. destruct (py_int line) as [c|] eqn:Hline.
    + eexists _, _. split.
      * apply try_except_ret.
        by mstep by (by eapply vote_song_body_out_of_range).
      * split_and!; [by apply quiet_print | apply last_emits | by left].
    + eexists _, _. split.
      * erewrite try_except_caught; cycle 1.
        -- erewrite bind_raise; [done |]. by eapply vote_song_body_not_int.
        -- done.
        -- apply print_run.
      * split_and!; [by apply quiet_print | apply last_emits | by right].
Qed.


(** C10: after a valid resource number, the vote is counted for the first
    resource of the stored list that has the type and url of the selected
    entry of the ranked list. *)
Theorem vote_counts_first_resource w i s line rest n selr k0 r0 :
  at_resource_step w i s line rest →
  py_int line = Some n → 1 ≤ n →
  _sort_resources (resources s) !! Z.to_nat (n - 1) = Some selr →
  find_first (λ r, same_resource r selr) 0 (resources s) = Some (k0, r0) →
  ∃ w', vote_on_resource w = (Ret tt, w') ∧
        songs w' = <[i := upvoted s k0 r0]> (songs w) ∧
        last (trace w') = Some (Print (vote_added_msg (votes r0 + 1))).
Proof.
  intros (results & line1 & n1 & sel & Hstep & Hint1 & Hn1 & Hsel1 & Hrel & _)
    Hint Hn Hsel Hfirst.
  rewrite (vote_on_resource_relocates _ _ _ _ _ _ _ _
             Hstep Hint1 Hn1 Hsel1 Hrel).
  apply find_first_Some in Hrel as (m & -> & Hs & _).
  apply find_first_Some in Hfirst as Hk0.
  destruct Hk0 as (m' & -> & Hr0 & _).
  change (0 + m)%nat with m in *. change (0 + m')%nat with m' in *.
  eexists. split.
  - apply try_except_ret.
    by mstep by (by eapply vote_song_body_vote).
  - assert (quiet w (resource_chosen (song_chosen w results (line :: rest))
                       s rest)) as Hquiet.
    { eapply quiet_trans; [apply quiet_song_chosen | apply quiet_resource_chosen]. }
    destruct (voted_world_spec _ _ _ _ _ _ Hquiet Hs Hr0) as (-> & _ & _).
    split; [done |]. cbn [trace voted_world emits]. by rewrite last_app.
Qed.

End vote.

(** ** Effects of the operations *)

Lemma only_talks_ret {A} (a : A) : only_talks (mret a).
Proof. intros w o w' [_ <-]%pair_inv. apply quiet_refl. Qed.

Lemma only_talks_raise {A} e : only_talks (@raise A e).
Proof. intros w o w' [_ <-]%pair_inv. apply quiet_refl. Qed.

Lemma only_talks_print s : only_talks (print s).
Proof.
  intros w o w' [_ <-]%pair_inv. apply (quiet_print w w), quiet_refl.
Qed.

Lemma only_talks_input prompt : only_talks (input prompt).
Proof.
  intros w o w'. unfold input.
  destruct (stdin w); intros [_ <-]%pair_inv;
    apply (quiet_emits [Prompt prompt] w); by repeat constructor.
Qed.

Lemma only_talks_get_songs : only_talks get_songs.
Proof. intros w o w' [_ <-]%pair_inv. apply quiet_refl. Qed.

Lemma only_talks_bind {A B} (m : M A) (f : A → M B) :
  only_talks m → (∀ a, only_talks (f a)) → only_talks (m ≫= f).
Proof.
  intros Hm Hf w o w'
    [(a & w1 & Hrun & Hrest)|[(e & Hrun & _)|[Hrun _]]]%bind_inv.
  - eapply quiet_trans; [by eapply Hm | by eapply Hf].
  - by eapply Hm.
  - by eapply Hm.
Qed.

Lemma only_talks_fmap {A B} (m : M A) (f : A → B) :
  only_talks m → only_talks (f <$> m).
Proof.
  intros Hm w o w' [(a & Hrun & _)|[(e & Hrun & _)|[Hrun _]]]%fmap_inv;
    by eapply Hm.
Qed.

Lemma only_talks_try_except {A} (body : M A) catches handler :
  only_talks body → (∀ e, only_talks (handler e)) →
  only_talks (try_except body catches handler).
Proof.
  intros Hbody Hhandler w o w'
    [(e & w1 & Hrun & _ & Hrest)|[Hrun _]]%try_except_inv.
  - eapply quiet_trans; [by eapply Hbody | by eapply Hhandler].
  - by eapply Hbody.
Qed.

Lemma only_talks_for_enumerate {A} start (l : list A) body :
  (∀ i x, only_talks (body i x)) → only_talks (for_enumerate start l body).
Proof.
  intros Hbody. revert start; induction l as [|x l IH]; intros start; simpl.
  - apply only_talks_ret.
  - apply only_talks_bind; [apply Hbody | intros _; apply IH].
Qed.

Create HintDb talks.

#[local] Hint Resolve only_talks_ret only_talks_raise only_talks_print
  only_talks_input only_talks_get_songs only_talks_fmap : talks.

(** Chaining steps that only talk. *)
Ltac quiet_chain :=
  solve [ eassumption
        | apply quiet_refl
        | eapply quiet_trans; [eassumption | quiet_chain] ].

(** Taking apart an operation that is built from the ones above. *)
Ltac talks :=
  repeat first
    [ progress eauto with talks
    | apply only_talks_bind; [|intros ?]
    | apply only_talks_for_enumerate; intros ? ?
    | apply only_talks_try_except; [|intros ?]
    | match goal with
      | |- only_talks (if ?b then _ else _) => destruct b
      | |- only_talks (match ?x with _ => _ end) => destruct x
      | |- only_talks (let _ := _ in _) => cbv zeta
      end ].

Section effects.
Context `{PyBuiltins}.

Lemma only_talks_search query : only_talks (search query).
Proof. unfold search. talks. Qed.

Lemma only_talks_display_song s index : only_talks (display_song s index).
Proof. unfold display_song. talks. Qed.

Lemma only_talks_display_search_results results :
  only_talks (display_search_results results).
Proof. unfold display_search_results. talks. Qed.

Lemma only_talks_list_all : only_talks list_all.
Proof. unfold list_all. talks. Qed.

#[local] Hint Resolve only_talks_search only_talks_display_search_results
  only_talks_list_all : talks.

(** *** Effects that absorb talk before and after them *)

Lemma does_talks {A} Q (m : M A) : only_talks m → does Q m.
Proof. intros Hm w o w' Hrun. left. by eapply Hm. Qed.

Lemma does_mono {A} (Q Q' : World → World → Prop) (m : M A) :
  (∀ w w', Q w w' → Q' w w') → does Q m → does Q' m.
Proof. intros HQ Hm w o w' [?|?]%Hm; [by left | right; auto]. Qed.

Lemma does_bind_l {A B} Q (m : M A) (f : A → M B) :
  (∀ w1 w2 w3, quiet w1 w2 → Q w2 w3 → Q w1 w3) →
  only_talks m → (∀ a, does Q (f a)) → does Q (m ≫= f).
Proof.
  intros HQ Hm Hf w o w'
    [(a & w1 & Hrun & Hrest)|[(e & Hrun & _)|[Hrun _]]]%bind_inv.
  - apply Hm in Hrun. apply Hf in Hrest as [Hquiet|Heffect].
    + left. by eapply quiet_trans.
    + right. by eapply HQ.
  - left. by eapply Hm.
  - left. by eapply Hm.
Qed.

Lemma does_bind_r {A B} Q (m : M A) (f : A → M B) :
  (∀ w1 w2 w3, Q w1 w2 → quiet w2 w3 → Q w1 w3) →
  does Q m → (∀ a, only_talks (f a)) → does Q (m ≫= f).
Proof.
  intros HQ Hm Hf w o w'
    [(a & w1 & Hrun & Hrest)|[(e & Hrun & _)|[Hrun _]]]%bind_inv.
  - apply Hf in Hrest. apply Hm in Hrun as [Hquiet|Heffect].
    + left. by eapply quiet_trans.
    + right. by eapply HQ.
  - by eapply Hm.
  - by eapply Hm.
Qed.

Lemma does_try_except {A} Q (body : M A) catches handler :
  (∀ w1 w2 w3, Q w1 w2 → quiet w2 w3 → Q w1 w3) →
  does Q body → (∀ e, only_talks (handler e)) →
  does Q (try_except body catches handler).
Proof.
  intros HQ Hbody Hhandler w o w'
    [(e & w1 & Hrun & _ & Hrest)|[Hrun _]]%try_except_inv.
  - apply Hhandler in Hrest. apply Hbody in Hrun as [Hquiet|Heffect].
    + left. by eapply quiet_trans.
    + right. by eapply HQ.
  - by eapply Hbody.
Qed.

Lemma added_after_talk w1 w2 w3 : quiet w1 w2 → added w2 w3 → added w1 w3.
Proof.
  intros (Hsongs & _) (new & Hnew & Happ & Hdisk).
  exists new. by rewrite <-Hsongs.
Qed.

Lemma added_before_talk w1 w2 w3 : added w1 w2 → quiet w2 w3 → added w1 w3.
Proof.
  intros (new & Hnew & Happ & Hdisk) (Hsongs & Hdisk' & _).
  exists new. by rewrite Hsongs, Hdisk'.
Qed.

Lemma voted_after_talk w1 w2 w3 : quiet w1 w2 → voted w2 w3 → voted w1 w3.
Proof.
  intros (Hsongs & _) (i & k & Hvoted & Hdisk).
  exists i, k. by rewrite <-Hsongs.
Qed.

Lemma voted_before_talk w1 w2 w3 : voted w1 w2 → quiet w2 w3 → voted w1 w3.
Proof.
  intros (i & k & Hvoted & Hdisk) (Hsongs & Hdisk' & _).
  exists i, k. by rewrite Hsongs, Hdisk'.
Qed.

Lemma bind_ext {A B} (m : M A) (f g : A → M B) w :
  (∀ a w', m w = (Ret a, w') → f a w' = g a w') →
  (m ≫= f) w = (m ≫= g) w.
Proof.
  intros Hfg. unfold mbind, M_bind.
  destruct (m w) as [[a| |] w'] eqn:Hm; [by apply Hfg | done..].
Qed.

Lemma input_stdin prompt w line w' :
  input prompt w = (Ret line, w') → stdin w = line :: stdin w'.
Proof.
  unfold input. destruct (stdin w) as [|line' rest]; [done |].
  by intros [[= ->] <-]%pair_inv.
Qed.

Lemma fmap_input_stdin {B} (f : pystr → B) prompt w b w' :
  (f <$> input prompt) w = (Ret b, w') → ∃ line, stdin w = line :: stdin w'.
Proof.
  intros [(line & Hin & _)|[(e & _ & ?)|[_ ?]]]%fmap_inv; [|done..].
  exists line. by eapply input_stdin.
Qed.

Lemma print_stdin s w u w' : print s w = (Ret u, w') → stdin w' = stdin w.
Proof. by intros [_ <-]%pair_inv. Qed.

(** The loop that collects the resources of a new song ends for every
    input, and the fuel it is given by [add_song] is never used up: any
    two amounts of fuel above the number of lines left give the same
    run. *)
Lemma add_resources_loop_fuel fuel1 fuel2 rs w :
  (length (stdin w) < fuel1)%nat → (length (stdin w) < fuel2)%nat →
  add_resources_loop fuel1 rs w = add_resources_loop fuel2 rs w.
Proof.
  revert fuel2 rs w; induction fuel1 as [|fuel1 IH];
    intros [|fuel2] rs w Hfuel1 Hfuel2; [lia.. |].
  cbn [add_resources_loop].
  apply bind_ext. intros answer w1 Hin1%input_stdin.
  destruct (negb _); [done |].
  apply bind_ext. intros _ w2 Hin2%print_stdin.
  apply bind_ext. intros t w3 [l3 Hin3]%fmap_input_stdin.
  apply bind_ext. intros u w4 [l4 Hin4]%fmap_input_stdin.
  apply bind_ext. intros l w5 [l5 Hin5]%fmap_input_stdin.
  apply bind_ext. intros c w6 [l6 Hin6]%fmap_input_stdin.
  apply bind_ext. intros _ w7 Hin7%print_stdin.
  rewrite Hin1 in Hfuel1, Hfuel2. cbn [length] in Hfuel1, Hfuel2.
  rewrite <-Hin2, Hin3, Hin4, Hin5, Hin6, <-Hin7 in Hfuel1, Hfuel2.
  cbn [length] in Hfuel1, Hfuel2.
  apply IH; lia.
Qed.

(** The loop that collects the resources of a new song only talks, and
    every resource it adds has no votes. *)
Lemma add_resources_loop_effect fuel rs w o w' :
  add_resources_loop fuel rs w = (o, w') →
  quiet w w' ∧
  ∀ rs', o = Ret rs' → Forall (λ r, votes r = 0) rs →
         Forall (λ r, votes r = 0) rs'.
Proof.
  revert rs w o w'; induction fuel as [|fuel IH]; intros rs w o w'; simpl.
  { intros [<- <-]%pair_inv. split; [apply quiet_refl |]. by intros ? [= <-]. }
  intros [(answer & w1 & Hanswer & Hrest)|Hfail]%bind_inv.
  2:{ assert (quiet w w' ∧ ∀ rs', o ≠ Ret rs') as [Hquiet Ho].
      { destruct Hfail as [(e & Hrun & ->)|[Hrun ->]];
          (split; [by eapply only_talks_input | done]). }
      split; [done |]. intros rs' ->. by destruct (Ho rs'). }
  apply only_talks_input in Hanswer as Hq1.
  destruct (negb _).
  { apply pair_inv in Hrest as [<- <-]. split; [done |]. by intros ? [= <-]. }
  assert (∀ {A B} (m : M A) (f : A → M B) w1 o w',
    only_talks m → (m ≫= f) w1 = (o, w') →
    (∃ a w2, quiet w1 w2 ∧ f a w2 = (o, w')) ∨
    (quiet w1 w' ∧ ∀ b, o ≠ Ret b)) as Hstep.
  { intros A B m f wa oa wb Hm
      [(a & w2 & Hrun & Hrest')|[(e & Hrun & ->)|[Hrun ->]]]%bind_inv.
    - left. exists a, w2. split; [by eapply Hm | done].
    - right. split; [by eapply Hm | done].
    - right. split; [by eapply Hm | done]. }
  assert (∀ wa, quiet w1 wa → (∀ b : list Resource, o ≠ Ret b) →
    quiet w wa ∧ ∀ rs', o = Ret rs' → Forall (λ r, votes r = 0) rs →
                        Forall (λ r, votes r = 0) rs') as Hstop.
  { intros wa Hqa Ho. split; [by eapply quiet_trans |].
    intros rs' ->. by destruct (Ho rs'). }
  apply Hstep in Hrest as [(_ & w2 & Hq2 & Hrest)|[? ?]];
    [|by apply Hstop | talks].
  apply Hstep in Hrest as [(t & w3 & Hq3 & Hrest)|[? ?]];
    [|apply Hstop; [quiet_chain | done] | talks].
  apply Hstep in Hrest as [(u & w4 & Hq4 & Hrest)|[? ?]];
    [|apply Hstop; [quiet_chain | done]
     | talks].
  apply Hstep in Hrest as [(l & w5 & Hq5 & Hrest)|[? ?]];
    [|apply Hstop; [quiet_chain | done]
     | talks].
  apply Hstep in Hrest as [(c & w6 & Hq6 & Hrest)|[? ?]];
    [|apply Hstop; [quiet_chain | done]
     | talks].
  apply Hstep in Hrest as [(_ & w7 & Hq7 & Hrest)|[? ?]];
    [|apply Hstop; [quiet_chain | done]
     | talks].
  apply IH in Hrest as [Hq8 Hvotes]. split.
  - quiet_chain.
  - intros rs' Ho Hrs. apply (Hvotes rs' Ho).
    apply Forall_app. split; [done |]. by repeat constructor.
Qed.

Lemma add_song_effect : does added add_song.
Proof.
  unfold add_song.
  apply does_bind_l; [apply added_after_talk | talks | intros _].
  apply does_bind_l; [apply added_after_talk | talks | intros artist].
  destruct (bool_decide _); [apply does_talks; talks |].
  apply does_bind_l; [apply added_after_talk | talks | intros artist_original].
  apply does_bind_l; [apply added_after_talk | talks | intros song_name].
  destruct (bool_decide _); [apply does_talks; talks |].
  apply does_bind_l; [apply added_after_talk | talks | intros song_original].
  intros w o w' [(rs & w1 & Hloop & Hrest)|Hfail]%bind_inv.
  - apply add_resources_loop_effect in Hloop as [Hquiet Hvotes].
    right. apply (added_after_talk _ _ _ Hquiet).
    apply pair_inv in Hrest as [_ <-].
    eexists. split_and!; [|reflexivity..].
    by apply (Hvotes rs).
  - left. destruct Hfail as [(e & Hloop & _)|[Hloop _]];
      by apply add_resources_loop_effect in Hloop as [? _].
Qed.

Lemma vote_on_resource_voted : does voted vote_on_resource.
Proof.
  intros w o w'
    [Hquiet|(i & k & s & r & w1 & Hs & Hr & Hquiet & -> & ->)]%
      vote_on_resource_effect; [by left | right].
  destruct (voted_world_spec _ _ _ _ _ _ Hquiet Hs Hr) as (Hsongs & Hdisk & _).
  exists i, k. split; [|done]. rewrite Hsongs. by exists s, r.
Qed.

Lemma main_body_effect : does (λ w w', added w w' ∨ voted w w') main_body.
Proof.
  assert (∀ w1 w2 w3, added w1 w2 ∨ voted w1 w2 → quiet w2 w3 →
                      added w1 w3 ∨ voted w1 w3) as Hsuffix.
  { intros w1 w2 w3 [?|?] ?;
      [left; by eapply added_before_talk | right; by eapply voted_before_talk]. }
  assert (∀ w1 w2 w3, quiet w1 w2 → added w2 w3 ∨ voted w2 w3 →
                      added w1 w3 ∨ voted w1 w3) as Hprefix.
  { intros w1 w2 w3 ? [?|?];
      [left; by eapply added_after_talk | right; by eapply voted_after_talk]. }
  unfold main_body. apply does_try_except; [done | | intros ?; talks].
  do 6 (apply does_bind_l; [done | talks | intros _]).
  apply does_bind_l; [done | talks | intros choice].
  destruct (str_eqb choice (lit "1")); [apply does_talks; talks |].
  destruct (str_eqb choice (lit "2")).
  { apply does_bind_r; [done | | talks].
    eapply does_mono; [|apply add_song_effect]. by left. }
  destruct (str_eqb choice (lit "3")); [apply does_talks; talks |].
  destruct (str_eqb choice (lit "4")).
  { apply does_bind_r; [done | | talks].
    eapply does_mono; [|apply vote_on_resource_voted]. by right. }
  destruct (str_eqb choice (lit "5")); apply does_talks; talks.
Qed.

(** What [voted_at] says, position by position and field by field. *)
Lemma voted_at_frame (i k : nat) (l l' : list Song) :
  voted_at i k l l' →
  length l' = length l ∧
  (∀ j, j ≠ i → l' !! j = l !! j) ∧
  ∃ s s' r r',
    l !! i = Some s ∧ l' !! i = Some s' ∧
    artist s' = artist s ∧ song s' = song s ∧
    artist_original s' = artist_original s ∧
    song_original s' = song_original s ∧
    length (resources s') = length (resources s) ∧
    (∀ m, m ≠ k → resources s' !! m = resources s !! m) ∧
    resources s !! k = Some r ∧ resources s' !! k = Some r' ∧
    type r' = type r ∧ url r' = url r ∧ language r' = language r ∧
    content r' = content r ∧ votes r' = votes r + 1.
Proof.
  intros (s & r & Hs & Hr & ->).
  split; [by rewrite length_insert |].
  split; [intros j Hj; by rewrite list_lookup_insert_ne |].
  exists s, (upvoted s k r), r,
    (mkResource (type r) (url r) (language r) (votes r + 1) (content r)).
  split; [done |].
  split; [by rewrite list_lookup_insert_eq by (by eapply lookup_lt_Some) |].
  cbn [upvoted artist song artist_original song_original resources].
  split_and!; try done.
  - by rewrite length_insert.
  - intros m Hm. by rewrite list_lookup_insert_ne.
  - by rewrite list_lookup_insert_eq by (by eapply lookup_lt_Some).
Qed.

(** *** The invariant *)

Lemma votes_nonneg_voted_at i k l l' :
  voted_at i k l l' → votes_nonneg l → votes_nonneg l'.
Proof.
  intros (s & r & Hs & Hr & ->) Hl. unfold votes_nonneg in *.
  apply Forall_insert; [done |]. cbn [upvoted resources].
  rewrite Forall_lookup in Hl. specialize (Hl _ _ Hs).
  apply Forall_insert; [done |]. cbn [votes].
  rewrite Forall_lookup in Hl. specialize (Hl _ _ Hr). cbn in Hl. lia.
Qed.

Lemma sound_quiet w w' : sound w → quiet w w' → sound w'.
Proof. intros Hsound (Hsongs & Hdisk & _). unfold sound. by rewrite Hsongs, Hdisk. Qed.

Lemma sound_added w w' : sound w → added w w' → sound w'.
Proof.
  intros [Hsongs _] (new & Hnew & Happ & Hdisk).
  assert (votes_nonneg (songs w')) as Hsongs'.
  { rewrite Happ. apply Forall_app. split; [done |].
    constructor; [|constructor].
    eapply Forall_impl; [exact Hnew |]. cbn. intros r ->. lia. }
  split; [done |]. rewrite Hdisk. by eexists.
Qed.

Lemma sound_voted w w' : sound w → voted w w' → sound w'.
Proof.
  intros [Hsongs _] (i & k & Hvoted & Hdisk).
  assert (votes_nonneg (songs w')) as Hsongs'.
  { by eapply votes_nonneg_voted_at. }
  split; [done |]. rewrite Hdisk. by eexists.
Qed.

(** Starting the program without a database file creates an empty one. *)
Lemma main_start_fresh inp o w :
  main_start (mkWorld [] None inp []) = (o, w) →
  songs w = [] ∧ disk w = Some (Document (save_data [])).
Proof. by intros [_ <-]%pair_inv. Qed.

(** Starting it with a file that [save] wrote loads the saved songs. *)
Lemma main_start_saved l inp o w :
  main_start (mkWorld [] (Some (Document (save_data l))) inp []) = (o, w) →
  songs w = l ∧ disk w = Some (Document (save_data l)).
Proof.
  assert (∃ tr, main_start (mkWorld [] (Some (Document (save_data l))) inp [])
                = (Ret tt, mkWorld l (Some (Document (save_data l))) inp tr))
    as [tr ->].
  { eexists. unfold main_start, __init__. mstep. mstep. mstep.
    apply load_saved. }
  by intros [_ <-]%pair_inv.
Qed.

Lemma sound_saved w l :
  songs w = l → disk w = Some (Document (save_data l)) → votes_nonneg l →
  sound w.
Proof. intros Hsongs Hdisk Hl. unfold sound. rewrite Hsongs, Hdisk. eauto. Qed.

Lemma reachable_sound b w : reachable b w → sound w.
Proof.
  induction 1 as [inp o w Hstart|b w0 inp o w _ [_ IH] Hstart
                  |w o w' _ IH Hstep].
  - apply main_start_fresh in Hstart as [Hsongs Hdisk].
    eapply sound_saved; [done.. | constructor].
  - destruct (disk w0) as [f|] eqn:Hdisk0.
    + destruct IH as (l & -> & Hl).
      apply main_start_saved in Hstart as [Hsongs Hdisk].
      by eapply sound_saved.
    + apply main_start_fresh in Hstart as [Hsongs Hdisk].
      eapply sound_saved; [done.. | constructor].
  - apply main_body_effect in Hstep as [Hquiet|[Hadded|Hvoted]].
    + by eapply sound_quiet.
    + by eapply sound_added.
    + by eapply sound_voted.
Qed.


End effects.



(** ** Runs on concrete input *)

(** The search scenario of the specification: the query matches in any
    case, since the song name S1 contains s1 once both are lower case. *)
Example search_scenario :
  (search (lit "s1") (session [scenario_song] [])).1 = Ret [scenario_song] ∧
  (search (lit "S1") (session [scenario_song] [])).1 = Ret [scenario_song] ∧
  (search (lit "s2") (session [scenario_song] [])).1 = Ret [].
Proof. by split_and!. Qed.

(** The witness for C4: the second entry of the ranked scenario list
    (vid.lyrics) gets its third vote. *)
Lemma vote_counts_once_witness :
  let w := session [scenario_song] [lit "s1"; lit "1"; lit "2"] in
  let w' := (vote_on_resource w).2 in
  vote_on_resource w = (Ret tt, w') ∧
  vote_added w w' ∧
  ∃ i k,
    voted_at i k (songs w) (songs w') ∧
    votes_at i k (songs w') = Z.succ <$> votes_at i k (songs w) ∧
    ∀ n w'', voted_times i k w' n w'' →
      votes_at i k (songs w'')
      = (λ v, v + 1 + Z.of_nat n) <$> votes_at i k (songs w).
Proof.
  intros w w'.
  assert (vote_on_resource w = (Ret tt, w')) as Hrun by reflexivity.
  assert (vote_added w w') as Hadded.
  { exists (take 9 (trace w')), (save_data (songs w')), 3. reflexivity. }
  split_and!; [exact Hrun | exact Hadded |].
  exact (vote_counts_once w (Ret tt) w' Hrun Hadded).
Defined.

(** The witness for C6: a letter instead of the song number. *)
Lemma vote_bad_selection_rejected_witness :
  let w := session [scenario_song] [lit "s1"; lit "x"] in
  bad_selection w ∧
  ∃ w' msg,
    vote_on_resource w = (Ret tt, w') ∧
    quiet w w' ∧
    last (trace w') = Some (Print msg) ∧
    (msg = lit "Invalid selection." ∨ msg = lit "Please enter a valid number.").
Proof.
  intros w.
  assert (bad_selection w) as Hbad.
  { apply (bad_song_choice w [scenario_song] (lit "x") []).
    - split; [done |]. exists (lit "s1").
      split_and!; [reflexivity | done | reflexivity | done].
    - exact I. }
  split; [exact Hbad |].
  exact (vote_bad_selection_rejected w Hbad).
Defined.


(** The witness for C10: of two resources with the same type and url the
    user selects the one ranked first, which is stored second; the vote
    goes to the one stored first. *)
Lemma vote_counts_first_resource_witness :
  let w := session [twin_song] [lit "s2"; lit "1"; lit "1"] in
  (at_resource_step w 0 twin_song (lit "1") [] ∧
   py_int (lit "1") = Some 1 ∧ 1 ≤ 1 ∧
   _sort_resources (resources twin_song) !! Z.to_nat (1 - 1) = Some twin_ja ∧
   find_first (λ r, same_resource r twin_ja) 0 (resources twin_song)
     = Some (0%nat, twin_en) ∧
   twin_ja ≠ twin_en) ∧
  ∃ w', vote_on_resource w = (Ret tt, w') ∧
        songs w' = <[0%nat := upvoted twin_song 0 twin_en]> (songs w) ∧
        last (trace w') = Some (Print (vote_added_msg (votes twin_en + 1))).
Proof.
  intros w.
  assert (at_resource_step w 0 twin_song (lit "1") []) as Hstep.
  { exists [twin_song], (lit "1"), 1, twin_song.
    split_and!; [|reflexivity | lia | reflexivity | reflexivity | done].
    split; [done |]. exists (lit "s2").
    split_and!; [reflexivity | done | reflexivity | done]. }
  split; [by split_and! |].
  exact (vote_counts_first_resource w 0%nat twin_song (lit "1") [] 1
           twin_ja 0%nat twin_en Hstep eq_refl ltac:(lia) eq_refl eq_refl).
Defined.

(** * Further properties *)

(** ** Ranking *)

Lemma sort_resources_unique_witness :
  let l := [twin_en; twin_ja] in
  let l' := [twin_ja; twin_en] in
  (StronglySorted ranked_le l' ∧
   ∀ r, filter (same_rank r) l' = filter (same_rank r) l) ∧
  l' = _sort_resources l.
Proof.
  intros l l'.
  assert (StronglySorted ranked_le l') as Hsorted.
  { repeat constructor. }
  assert (∀ r, filter (same_rank r) l' = filter (same_rank r) l) as Hstable.
  { intros r. unfold l, l'. rewrite !filter_cons, !filter_nil.
    destruct (decide (same_rank r twin_ja)) as [[Hja _]|];
      destruct (decide (same_rank r twin_en)) as [[Hen _]|]; try done.
    cbn in Hja, Hen. lia. }
  split; [by split |].
  exact (sort_resources_unique l l' Hsorted Hstable).
Defined.

(** ** Reading the file *)

Lemma new_Resource_described res r w :
  describes_resource res r → new_Resource res w = (Ret (Some r), w).
Proof.
  intros (kwargs & -> & Hkeys & Ht & Hu & Hl & Hv & Hc). unfold new_Resource.
  replace (forallb _ kwargs) with true.
  2:{ symmetry. clear -Hkeys. induction Hkeys as [|kv kwargs Hkv _ IH]; [done |].
      cbn [forallb]. by rewrite IH, bool_decide_eq_true_2. }
  rewrite Ht, Hu, Hl. destruct r as [t u l v c]. cbn in *.
  destruct Hv as [->|[-> ->]];
    (destruct c as [c|]; [rewrite Hc | destruct Hc as [->| ->]]); done.
Qed.

Lemma new_Resources_described items rs w :
  Forall2 describes_resource items rs →
  new_Resources items w = (Ret (Some rs), w).
Proof.
  induction 1 as [|res r items rs Hres _ IH]; [done |].
  cbn [new_Resources].
  mstep by (by apply new_Resource_described).
  by mstep by apply IH.
Qed.

Lemma new_Song_resources d rs w :
  describes_resources d rs →
  (v ← py_get (JDict d) (lit "resources") (JList []);
   items ← py_iter v; new_Resources items) w = (Ret (Some rs), w).
Proof.
  intros [[Hnone ->]|(items & Hsome & Hitems)]; unfold py_get.
  - rewrite Hnone. by mstep.
  - rewrite Hsome. mstep. mstep. by apply new_Resources_described.
Qed.

Lemma new_Song_described song_data s w :
  describes_song song_data s → new_Song song_data w = (Ret (Some s), w).
Proof.
  intros (d & -> & Ha & Hs & Hao & Hso & Hrs). unfold new_Song.
  pose proof (new_Song_resources d _ w Hrs) as Hres.
  apply bind_inv in Hres as [(v & w1 & Hv & Hres)|[(? & _ & ?)|[_ ?]]];
    [|done..].
  mstep by exact Hv.
  apply bind_inv in Hres as [(items & w2 & Hitems & Hres)|[(? & _ & ?)|[_ ?]]];
    [|done..].
  mstep by exact Hitems. mstep by exact Hres.
  unfold py_getitem. rewrite Ha, Hs, Hao, Hso.
  by destruct s.
Qed.

Lemma load_loop_described typed items l w :
  Forall2 describes_song items l →
  load_loop typed items w = (Ret typed, set_songs (songs w ++ l) w).
Proof.
  intros Hitems. revert w.
  induction Hitems as [|song_data s items l Hsong _ IH]; intros w.
  - cbn. rewrite app_nil_r. by destruct w.
  - cbn [load_loop]. mstep by (by apply new_Song_described).
    mstep. mstep. rewrite IH. cbn. by rewrite <-(assoc_L (++)).
Qed.

(** [load] reads every document that gives the fields of the songs,
    whatever the order of the keys and whatever other keys a song record
    has; a resource record without votes or content gets 0 votes and no
    content. *)
Theorem load_described items l l0 inp tr :
  Forall2 describes_song items l →
  load (mkWorld l0 (Some (Document (JList items))) inp tr)
  = (Ret tt, mkWorld l (Some (Document (JList items))) inp tr).
Proof.
  intros Hitems. unfold load. cbn [disk]. apply try_except_ret.
  mstep. mstep. mstep.
  by mstep by (by apply load_loop_described).
Qed.

Lemma load_described_witness :
  let doc :=
    [ JDict [ (lit "year", JInt 1999);
              (lit "song", JStr (lit "S1"));
              (lit "artist", JStr (lit "A"));
              (lit "song_original", JStr (lit "S1"));
              (lit "artist_original", JStr (lit "A"));
              (lit "resources",
               JList [ JDict [ (lit "language", JStr (lit "en"));
                               (lit "url", JStr (lit "u"));
                               (lit "type", JStr (lit "vid.subs")) ] ]) ];
      JDict [ (lit "artist", JStr (lit "A")); (lit "song", JStr (lit "S1"));
              (lit "artist_original", JStr (lit "A"));
              (lit "song_original", JStr (lit "S1")) ] ] in
  let l := [ mkSong (lit "A") (lit "S1") (lit "A") (lit "S1") [twin_en];
             bare_song ] in
  Forall2 describes_song doc l ∧
  load (mkWorld [] (Some (Document (JList doc))) [] [])
  = (Ret tt, mkWorld l (Some (Document (JList doc))) [] []).
Proof.
  intros doc l.
  assert (Forall2 describes_song doc l) as Hdoc.
  { repeat constructor.
    - eexists. split; [reflexivity |]. split_and!; try reflexivity.
      right. eexists. split; [reflexivity |]. repeat constructor.
      eexists. split; [reflexivity |].
      split_and!; try reflexivity.
      + repeat constructor; by apply (bool_decide_unpack _).
      + by right.
      + by right.
    - eexists. split; [reflexivity |]. split_and!; try reflexivity.
      by left. }
  split; [exact Hdoc |].
  exact (load_described doc l [] [] [] Hdoc).
Defined.

Lemma load_loop_described_app typed items l more w :
  Forall2 describes_song items l →
  load_loop typed (items ++ more) w
  = load_loop typed more (set_songs (songs w ++ l) w).
Proof.
  intros Hitems. revert w.
  induction Hitems as [|song_data s items l Hsong _ IH]; intros w.
  - cbn. rewrite app_nil_r. by destruct w.
  - cbn [app load_loop]. mstep by (by apply new_Song_described).
    mstep. mstep. rewrite IH. cbn. by rewrite <-(assoc_L (++)).
Qed.

Lemma new_Song_without_key d rs i key w :
  describes_resources d rs →
  find_first (absent d) 0 song_keys = Some (i, key) →
  new_Song (JDict d) w = (Raise (KeyError key), w).
Proof.
  intros Hrs Hkey. unfold new_Song.
  pose proof (new_Song_resources d _ w Hrs) as Hres.
  apply bind_inv in Hres as [(v & w1 & Hv & Hres)|[(? & _ & ?)|[_ ?]]];
    [|done..].
  mstep by exact Hv.
  apply bind_inv in Hres as [(items & w2 & Hitems & Hres)|[(? & _ & ?)|[_ ?]]];
    [|done..].
  mstep by exact Hitems. mstep by exact Hres.
  unfold py_getitem. cbn in Hkey. unfold absent in Hkey.
  destruct (dict_get (lit "artist") d); [|by simplify_eq].
  destruct (dict_get (lit "song") d); [|by simplify_eq].
  destruct (dict_get (lit "artist_original") d); [|by simplify_eq].
  destruct (dict_get (lit "song_original") d); [|by simplify_eq].
  done.
Qed.

(** A song record without one of the four names makes [load] report the
    first name that is missing, forget the songs it had read from the
    records before, and return; the records after it are not read and the
    file stays as it is. *)
Theorem load_song_without_key w before l d rs rest i key :
  disk w = Some (Document (JList (before ++ JDict d :: rest))) →
  Forall2 describes_song before l →
  describes_resources d rs →
  find_first (absent d) 0 song_keys = Some (i, key) →
  load w = (Ret tt, set_songs [] (emits
    [Print (lit "Error loading database: " ++ lit "'" ++ key ++ lit "'")] w)).
Proof.
  intros Hdisk Hbefore Hrs Hkey. unfold load. rewrite Hdisk.
  erewrite try_except_caught; cycle 1.
  - mstep. mstep. mstep.
    erewrite bind_raise; [reflexivity |].
    rewrite (load_loop_described_app _ _ _ _ _ Hbefore). cbn [load_loop].
    erewrite bind_raise; [reflexivity |].
    by eapply new_Song_without_key.
  - reflexivity.
  - mstep by apply print_run. by destruct w.
Qed.

Lemma load_song_without_key_witness :
  let d := [ (lit "artist", JStr (lit "B")); (lit "song", JStr (lit "S2")) ] in
  let w := mkWorld [] (Some (Document (JList [song_dict scenario_song; JDict d;
                                              JInt 5]))) [] [] in
  (disk w = Some (Document (JList ([song_dict scenario_song] ++ JDict d
                                    :: [JInt 5]))) ∧
   Forall2 describes_song [song_dict scenario_song] [scenario_song] ∧
   describes_resources d [] ∧
   find_first (absent d) 0 song_keys = Some (2%nat, lit "artist_original")) ∧
  load w = (Ret tt, set_songs [] (emits
    [Print (lit "Error loading database: 'artist_original'")] w)).
Proof.
  intros d w.
  assert (Forall2 describes_song [song_dict scenario_song] [scenario_song])
    as Hbefore.
  { repeat constructor. eexists. split; [reflexivity |].
    split_and!; try reflexivity. right. eexists. split; [reflexivity |].
    repeat constructor; (eexists; split; [reflexivity |]);
      (split_and!; try reflexivity;
       [repeat constructor; by apply (bool_decide_unpack _) | by left | by left]). }
  assert (describes_resources d []) as Hrs by (by left).
  split; [by split_and! |].
  exact (load_song_without_key w [song_dict scenario_song] [scenario_song] d []
           [JInt 5] 2%nat (lit "artist_original") eq_refl Hbefore Hrs eq_refl).
Defined.

(** ** The menu loop *)

Lemma behaves_ret {A} P (a : A) : behaves P (mret a).
Proof. by intros w o w' [<- <-]%pair_inv. Qed.

Lemma behaves_raise {A} (P : exn → Prop) e : P e → behaves P (@raise A e).
Proof. by intros He w o w' [<- <-]%pair_inv. Qed.

Lemma behaves_print P s : behaves P (print s).
Proof. by intros w o w' [<- <-]%pair_inv. Qed.

Lemma behaves_get_songs P : behaves P get_songs.
Proof. by intros w o w' [<- <-]%pair_inv. Qed.

Lemma behaves_put_songs P l : behaves P (put_songs l).
Proof. by intros w o w' [<- <-]%pair_inv. Qed.

Lemma behaves_save P : behaves P save.
Proof. by intros w o w' [<- <-]%pair_inv. Qed.

Lemma behaves_input (P : exn → Prop) prompt :
  P EOFError → behaves P (input prompt).
Proof.
  intros HP [sg dk [|line rest] tr] o w'; unfold input; cbn [stdin];
    intros [<- <-]%pair_inv; (split; [|done]); cbn [stdin emit set_stdin].
  - done.
  - by apply suffix_cons_r.
Qed.

Lemma behaves_bind {A B} P (m : M A) (f : A → M B) :
  behaves P m → (∀ a, behaves P (f a)) → behaves P (m ≫= f).
Proof.
  intros Hm Hf w o w'
    [(a & w1 & Hrun & Hrest)|[(e & Hrun & ->)|[Hrun ->]]]%bind_inv.
  - apply Hm in Hrun as [Hsuffix _]. apply Hf in Hrest as [Hsuffix' Ho].
    split; [by etrans | done].
  - by apply Hm in Hrun.
  - by apply Hm in Hrun.
Qed.

Lemma behaves_fmap {A B} P (m : M A) (f : A → B) :
  behaves P m → behaves P (f <$> m).
Proof.
  intros Hm w o w' [(a & Hrun & ->)|[(e & Hrun & ->)|[Hrun ->]]]%fmap_inv;
    by apply Hm in Hrun.
Qed.

Lemma behaves_try_except {A} (P Q : exn → Prop) (body : M A) catches handler :
  behaves P body →
  (∀ e, behaves Q (handler e)) →
  (∀ e, P e → catches e = false → Q e) →
  behaves Q (try_except body catches handler).
Proof.
  intros Hbody Hhandler HPQ w o w'
    [(e & w1 & Hrun & _ & Hrest)|[Hrun Ho]]%try_except_inv.
  - apply Hbody in Hrun as [Hsuffix _].
    apply Hhandler in Hrest as [Hsuffix' Ho].
    split; [by etrans | done].
  - apply Hbody in Hrun as [Hsuffix HP]. split; [done |].
    destruct o; auto.
Qed.

Lemma behaves_for_enumerate {A} P start (l : list A) body :
  (∀ i x, behaves P (body i x)) → behaves P (for_enumerate start l body).
Proof.
  intros Hbody. revert start; induction l as [|x l IH]; intros start; simpl.
  - apply behaves_ret.
  - apply behaves_bind; [apply Hbody | intros _; apply IH].
Qed.

Create HintDb behaves.

#[local] Hint Resolve behaves_ret behaves_print behaves_get_songs
  behaves_put_songs behaves_save behaves_fmap : behaves.

(** Taking apart an operation that is built from the ones above. *)
Ltac behaves :=
  repeat first
    [ progress eauto with behaves
    | apply behaves_input; solve [auto]
    | apply behaves_raise; solve [auto]
    | apply behaves_bind; [|intros ?]
    | apply behaves_for_enumerate; intros ? ?
    | match goal with
      | |- behaves _ (if ?b then _ else _) => destruct b eqn:?
      | |- behaves _ (match ?x with _ => _ end) => destruct x eqn:?
      | |- behaves _ (let _ := _ in _) => cbv zeta
      end ].

Section behaviour.
Context `{PyBuiltins}.

Lemma behaves_search P query : behaves P (search query).
Proof. unfold search. behaves. Qed.

Lemma behaves_display_song P s index : behaves P (display_song s index).
Proof. unfold display_song. behaves. Qed.

Lemma behaves_display_search_results P results :
  behaves P (display_search_results results).
Proof.
  unfold display_search_results. behaves.
Qed.

Lemma behaves_list_all P : behaves P list_all.
Proof. unfold list_all. behaves. Qed.

Lemma behaves_add_resources_loop fuel rs :
  behaves (λ e, e = EOFError) (add_resources_loop fuel rs).
Proof.
  revert rs; induction fuel as [|fuel IH]; intros rs; cbn [add_resources_loop].
  - apply behaves_ret.
  - behaves.
Qed.

Lemma behaves_add_song : behaves (λ e, e = EOFError) add_song.
Proof.
  unfold add_song. behaves.
  intros w o w' Hrun. by eapply behaves_add_resources_loop.
Qed.

Lemma behaves_vote_resource_loop P i sel k rest :
  behaves P (vote_resource_loop i sel k rest).
Proof.
  revert k; induction rest as [|r rest IH]; intros k;
    cbn [vote_resource_loop]; behaves.
Qed.

Lemma behaves_vote_song_body i s :
  behaves (λ e, e = EOFError ∨ e = ValueError) (vote_song_body i s).
Proof.
  unfold vote_song_body. behaves.
  - apply behaves_vote_resource_loop.
  - exfalso.
    match goal with
    | Hr : negb _ = false, Hl : _ !! _ = None |- _ =>
        apply choice_in_range in Hr; apply choice_lookup in Hr as [? Hsome];
        by rewrite Hsome in Hl
    end.
Qed.

Lemma behaves_vote_song_loop sel i rest :
  behaves (λ e, e = EOFError ∨ e = ValueError) (vote_song_loop sel i rest).
Proof.
  revert i; induction rest as [|s rest IH]; intros i;
    cbn [vote_song_loop]; behaves; try apply IH.
  apply behaves_vote_song_body.
Qed.

Lemma behaves_vote_on_resource : behaves (λ e, e = EOFError) vote_on_resource.
Proof.
  unfold vote_on_resource. behaves.
  eapply (behaves_try_except (λ e, e = EOFError ∨ e = ValueError)).
  - behaves.
    + apply behaves_vote_song_loop.
    + exfalso.
      match goal with
      | Hr : negb _ = false, Hl : _ !! _ = None |- _ =>
          apply choice_in_range in Hr; apply choice_lookup in Hr as [? Hsome];
          by rewrite Hsome in Hl
      end.
  - intros e. behaves.
  - by intros e [->| ->].
Qed.

#[local] Hint Resolve behaves_search behaves_display_search_results
  behaves_list_all behaves_add_song behaves_vote_on_resource : behaves.

Lemma behaves_main_body : behaves (λ _, False) main_body.
Proof.
  unfold main_body.
  eapply (behaves_try_except (λ e, e = EOFError)).
  - behaves.
  - intros e. behaves.
  - by intros e ->.
Qed.

Lemma main_body_returns w :
  ∃ stop w', main_body w = (Ret stop, w') ∧
             stdin w' `suffix_of` stdin w.
Proof.
  destruct (main_body w) as [o w'] eqn:Hrun.
  apply behaves_main_body in Hrun as [Hsuffix Ho].
  destruct o as [stop| |]; [|done..]. by exists stop, w'.
Qed.

(** A pass that leaves the loop has said goodbye; one that goes on has
    read at least one line. *)
Lemma main_body_progress w stop w' :
  main_body w = (Ret stop, w') →
  if stop
  then last (trace w') = Some (Print (lit "Goodbye!")) ∨
       last (trace w') = Some (Print (nl ++ nl ++ lit "Exiting..."))
  else (length (stdin w') < length (stdin w))%nat.
Proof.
  unfold main_body.
  intros [(e & w1 & Hrun & _ & Hrest)|[Hrun _]]%try_except_inv.
  { apply bind_inv in Hrest as [(? & w2 & Hprint & Hrest)|[(? & _ & ?)|[_ ?]]];
      [|done..].
    apply pair_inv in Hprint as [_ <-]. apply pair_inv in Hrest as [[= <-] <-].
    right. apply last_emits. }
  do 6 (apply bind_inv in Hrun
          as [(? & ? & [_ <-]%pair_inv & Hrun)|[(? & _ & ?)|[_ ?]]];
        [|done..]).
  apply bind_inv in Hrun as [(choice & w2 & Hin & Hrun)|[(? & _ & ?)|[_ ?]]];
    [|done..].
  apply fmap_input_stdin in Hin as [line Hin]. cbn [stdin emit] in Hin.
  assert (∀ (m : M unit), behaves (λ e, e = EOFError) m →
            (m ≫= λ _, mret false) w2 = (Ret stop, w') →
            stop = false ∧ stdin w' `suffix_of` stdin w2) as Hop.
  { intros m Hm [(? & w3 & Hrun' & [[= <-] <-]%pair_inv)
                 |[(? & _ & ?)|[_ ?]]]%bind_inv; [|done..].
    by apply Hm in Hrun' as [? _]. }
  assert (stop = false ∧ stdin w' `suffix_of` stdin w2 ∨
          stop = true ∧ last (trace w') = Some (Print (lit "Goodbye!")))
    as [[-> Hsuffix]|[-> Hlast]]; [|rewrite Hin; cbn [length];
      apply suffix_length in Hsuffix; lia | by left].
  destruct (str_eqb choice (lit "1")).
  { left.
    match type of Hrun with
    | ?m w2 = _ =>
        assert (behaves (λ e, e = EOFError) m) as Hbranch by behaves
    end.
    apply Hbranch in Hrun as Hsuffix. destruct Hsuffix as [Hsuffix _].
    split; [|done].
    do 3 (apply bind_inv in Hrun as [(? & ? & _ & Hrun)|[(? & _ & ?)|[_ ?]]];
          [|done..]).
    by apply pair_inv in Hrun as [[= <-] _]. }
  destruct (str_eqb choice (lit "2")).
  { left. by eapply Hop; [apply behaves_add_song |]. }
  destruct (str_eqb choice (lit "3")).
  { left. by eapply Hop; [apply behaves_list_all |]. }
  destruct (str_eqb choice (lit "4")).
  { left. by eapply Hop; [apply behaves_vote_on_resource |]. }
  destruct (str_eqb choice (lit "5")).
  { right.
    apply bind_inv in Hrun as [(? & ? & [_ <-]%pair_inv & Hrun)|[(? & _ & ?)|[_ ?]]];
      [|done..].
    apply pair_inv in Hrun as [[= <-] <-]. split; [done | apply last_emits]. }
  left. eapply (Hop (print (lit "Invalid option. Please choose 1-5.")));
    [behaves | exact Hrun].
Qed.


Lemma main_loop_total fuel w :
  (length (stdin w) < fuel)%nat →
  ∃ w', (∀ fuel', (length (stdin w) < fuel')%nat →
                  main_loop fuel' w = (Ret tt, w')) ∧
        (last (trace w') = Some (Print (lit "Goodbye!")) ∨
         last (trace w') = Some (Print (nl ++ nl ++ lit "Exiting..."))).
Proof.
  revert w. induction fuel as [|fuel IH]; intros w Hfuel; [lia |].
  destruct (main_body_returns w) as (stop & w1 & Hrun & _).
  pose proof (main_body_progress _ _ _ Hrun) as Hprogress.
  destruct stop.
  - exists w1. split; [|done]. intros [|fuel'] Hfuel'; [lia |].
    cbn [main_loop]. by mstep by exact Hrun.
  - destruct (IH w1) as (w' & Hloop & Hlast); [lia |].
    exists w'. split; [|done]. intros [|fuel'] Hfuel'; [lia |].
    cbn [main_loop]. mstep by exact Hrun. apply Hloop. lia.
Qed.


End behaviour.


(** ** Entering a song *)

Section add.
Context `{PyBuiltins}.

Lemma add_resources_loop_reads entries rs w fuel stop rest :
  stdin w = concat (lines_of <$> entries) ++ stop :: rest →
  Forall (λ e, lower (answer_line e) = lit "y") entries →
  lower stop ≠ lit "y" →
  (length (stdin w) < fuel)%nat →
  ∃ w', add_resources_loop fuel rs w
        = (Ret (rs ++ (resource_of <$> entries)), w') ∧
        quiet w w' ∧ stdin w' = rest.
Proof.
  intros Hin Hyes Hstop. revert rs w fuel Hin.
  induction Hyes as [|e entries He _ IH]; intros rs w [|fuel] Hin Hfuel;
    try lia; cbn [add_resources_loop].
  - cbn in Hin. eexists. split; [|split].
    + mstep by (by apply input_run).
      rewrite (proj2 (negb_true_iff _)), app_nil_r; [done |].
      apply not_true_iff_false. by rewrite str_eqb_eq.
    + apply (quiet_emits _ w). by repeat constructor.
    + done.
  - cbn in Hin.
    set (w5 := set_stdin (concat (lines_of <$> entries) ++ stop :: rest)
      (emits [ Prompt (nl ++ lit "Add a resource? (y/n): ");
               Print (nl ++ lit "--- New Resource ---");
               Prompt (lit "Type (e.g., vid.subs, vid.lyrics): ");
               Prompt (lit "URL: ");
               Prompt (lit "Language code (en/es/ja/etc) [en]: ");
               Prompt (lit "Content/notes (optional, press Enter to skip): ");
               Print (lit "Resource added.") ] w)).
    destruct (IH (rs ++ [resource_of e]) w5 fuel eq_refl)
      as (w' & Hloop & Hquiet & Hrest).
    { rewrite Hin in Hfuel. cbn in Hfuel |- *. lia. }
    exists w'. split; [|split; [|done]].
    + mstep by (by apply input_run).
      rewrite (proj2 (negb_false_iff _)) by (by apply str_eqb_eq).
      mstep by apply print_run.
      mstep by (by apply fmap_ret, input_run).
      mstep by (by apply fmap_ret, input_run).
      mstep by (by apply fmap_ret, input_run).
      mstep by (by apply fmap_ret, input_run).
      mstep by apply print_run.
      rewrite !emits_emits, !emits_set_stdin, !set_stdin_set_stdin,
        !emits_emits. cbn [app].
      etrans; [exact Hloop |].
      by rewrite <-(assoc_L (++)).
    + eapply quiet_trans; [|exact Hquiet].
      apply (quiet_emits _ w). by repeat constructor.
Qed.


End add.


(** ** Memory and file *)

Lemma talk_then {A B} (m : M A) (f : A → M B) w o w' :
  only_talks m → (m ≫= f) w = (o, w') →
  (∃ a w1, quiet w w1 ∧ f a w1 = (o, w')) ∨ quiet w w'.
Proof.
  intros Hm [(a & w1 & Hrun & Hrest)|[(e & Hrun & _)|[Hrun _]]]%bind_inv.
  - left. exists a, w1. split; [by eapply Hm | done].
  - right. by eapply Hm.
  - right. by eapply Hm.
Qed.

Section durable.
Context `{PyBuiltins}.


Lemma main_start_fresh_run inp :
  ∃ tr, main_start (mkWorld [] None inp [])
        = (Ret tt, mkWorld [] (Some (Document (save_data []))) inp tr).
Proof. by eexists. Qed.

Lemma main_start_saved_run l inp :
  ∃ tr, main_start (mkWorld [] (Some (Document (save_data l))) inp [])
        = (Ret tt, mkWorld l (Some (Document (save_data l))) inp tr).
Proof.
  eexists. unfold main_start, __init__. mstep. mstep. mstep.
  apply load_saved.
Qed.

Lemma in_sync_step w o w' : in_sync w → main_body w = (o, w') → in_sync w'.
Proof.
  unfold in_sync.
  intros Hsync [(Hsongs & Hdisk & _)|[(_ & _ & _ & Hdisk)|(_ & _ & _ & Hdisk)]]%
    main_body_effect; [|done..].
  by rewrite Hsongs, Hdisk.
Qed.



End durable.




(** ** Browsing and voting *)

Lemma emits_nil w : emits [] w = w.
Proof. unfold emits. rewrite app_nil_r. by destruct w. Qed.

Lemma only_prints_ret {A} (a : A) : only_prints (mret a).
Proof. intros w. exists a, []. by rewrite emits_nil. Qed.

Lemma only_prints_print s : only_prints (print s).
Proof. intros w. exists tt, [Print s]. split; [done |]. repeat constructor. by eexists. Qed.

Lemma only_prints_get_songs : only_prints get_songs.
Proof. intros w. exists (songs w), []. by rewrite emits_nil. Qed.

Lemma only_prints_bind {A B} (m : M A) (f : A → M B) :
  only_prints m → (∀ a, only_prints (f a)) → only_prints (m ≫= f).
Proof.
  intros Hm Hf w. destruct (Hm w) as (a & evs1 & Hrun & Hevs1).
  destruct (Hf a (emits evs1 w)) as (b & evs2 & Hrest & Hevs2).
  exists b, (evs1 ++ evs2). split; [|by apply Forall_app].
  mstep by exact Hrun. by rewrite Hrest, emits_emits.
Qed.

Lemma only_prints_for_enumerate {A} start (l : list A) body :
  (∀ i x, only_prints (body i x)) → only_prints (for_enumerate start l body).
Proof.
  intros Hbody. revert start; induction l as [|x l IH]; intros start; simpl.
  - apply only_prints_ret.
  - apply only_prints_bind; [apply Hbody | intros _; apply IH].
Qed.

Create HintDb prints.

#[local] Hint Resolve only_prints_ret only_prints_print only_prints_get_songs
  : prints.

Ltac prints :=
  repeat first
    [ progress eauto with prints
    | apply only_prints_bind; [|intros ?]
    | apply only_prints_for_enumerate; intros ? ?
    | match goal with
      | |- only_prints (if ?b then _ else _) => destruct b
      | |- only_prints (match ?x with _ => _ end) => destruct x
      | |- only_prints (let _ := _ in _) => cbv zeta
      end ].

Section more.
Context `{PyBuiltins}.

Lemma only_prints_display_song s index : only_prints (display_song s index).
Proof. unfold display_song. prints. Qed.

(** Searching, showing search results and listing always return, read no
    input and change nothing: the state afterwards is the state before
    with printed lines added. *)
Theorem browsing_only_prints :
  (∀ query, only_prints (search query)) ∧
  (∀ s index, only_prints (display_song s index)) ∧
  (∀ results, only_prints (display_search_results results)) ∧
  only_prints list_all.
Proof.
  split_and!.
  - intros query. unfold search. prints.
  - apply only_prints_display_song.
  - intros results. unfold display_search_results. prints.
  - unfold list_all. prints.
Qed.

(** A song is found by each of its four names, in any spelling that has
    the same lower-case form. *)
Theorem search_finds_by_name w s query :
  s ∈ songs w →
  lower query = lower (artist s) ∨ lower query = lower (song s) ∨
  lower query = lower (artist_original s) ∨
  lower query = lower (song_original s) →
  ∃ results, search query w = (Ret results, w) ∧ s ∈ results.
Proof.
  intros Hin Hname. eexists. split; [apply search_run |].
  apply (selects_elem_of _ _ _ _ (search_loop_selects _ _)).
  split; [done |].
  assert (∀ q, substring_of q q) as Hrefl.
  { intros q. exists [], []. by rewrite app_nil_r. }
  unfold matches. destruct Hname as [->|[->|[->| ->]]]; auto.
Qed.

(** The three ways in which [vote_on_resource] stops before any selection
    (an empty collection, a blank query, which ends the function without
    a message, and a query without match) leave everything but the
    output and the consumed query as it was. *)
Theorem vote_stops_early w evs rest :
  stops_early w evs rest →
  vote_on_resource w = (Ret tt, set_stdin rest (emits evs w)).
Proof.
  intros [Hsongs|q rest' Hsongs Hin Hq|q rest' Hsongs Hin Hq Hres];
    unfold vote_on_resource; mstep.
  - rewrite bool_decide_eq_true_2 by done. rewrite print_run. by destruct w.
  - rewrite bool_decide_eq_false_2 by done.
    mstep by (by apply fmap_ret, input_run).
    by rewrite bool_decide_eq_true_2.
  - rewrite bool_decide_eq_false_2 by done.
    mstep by (by apply fmap_ret, input_run).
    rewrite bool_decide_eq_false_2 by done.
    mstep by apply search_run. cbn [songs set_stdin emits].
    rewrite Hres, bool_decide_eq_true_2 by done.
    by rewrite print_run, emits_set_stdin, emits_emits.
Qed.

Lemma results_in_collection query l s :
  s ∈ search_loop query [] l → s ∈ l.
Proof.
  intros Hs. by apply (selects_elem_of _ _ _ _ (search_loop_selects _ _)) in Hs
    as [? _].
Qed.


Lemma foldr_add_insert (l : list Z) k x y :
  l !! k = Some x → foldr Z.add 0 (<[k := y]> l) = foldr Z.add 0 l - x + y.
Proof.
  revert k; induction l as [|z l IH]; intros [|k]; simpl; try done.
  - intros [= ->]. lia.
  - intros Hk. rewrite (IH _ Hk). lia.
Qed.

(** A counted vote raises the total that [list_all] shows for the song
    by one and leaves the totals of the other songs as they were. *)
Theorem vote_raises_total w o w' :
  vote_on_resource w = (o, w') → vote_added w w' →
  ∃ i s s',
    songs w !! i = Some s ∧ songs w' !! i = Some s' ∧
    song_votes s' = song_votes s + 1 ∧
    ∀ j, j ≠ i → songs w' !! j = songs w !! j.
Proof.
  intros Hrun Hadded.
  destruct (vote_added_counts _ _ _ Hrun Hadded) as (i & k & s & r & Hs & Hr & ->).
  exists i, s, (upvoted s k r). split_and!; [done | | |].
  - apply list_lookup_insert_eq. by eapply lookup_lt_Some.
  - unfold song_votes, upvoted. cbn [resources].
    rewrite list_fmap_insert. cbn [votes].
    rewrite (foldr_add_insert _ _ (votes r)); [lia |].
    by rewrite list_lookup_fmap, Hr.
  - intros j Hj. by apply list_lookup_insert_ne.
Qed.

End more.

Lemma search_finds_by_name_witness :
  let w := session [twin_song; scenario_song] [] in
  (scenario_song ∈ songs w ∧
   (lower (lit "S1") = lower (artist scenario_song) ∨
    lower (lit "S1") = lower (song scenario_song) ∨
    lower (lit "S1") = lower (artist_original scenario_song) ∨
    lower (lit "S1") = lower (song_original scenario_song))) ∧
  ∃ results, search (lit "S1") w = (Ret results, w) ∧ scenario_song ∈ results.
Proof.
  intros w.
  assert (scenario_song ∈ songs w) as Hin by (right; left).
  assert (lower (lit "S1") = lower (artist scenario_song) ∨
          lower (lit "S1") = lower (song scenario_song) ∨
          lower (lit "S1") = lower (artist_original scenario_song) ∨
          lower (lit "S1") = lower (song_original scenario_song)) as Hname
    by (right; left; reflexivity).
  split; [by split |].
  exact (search_finds_by_name w scenario_song (lit "S1") Hin Hname).
Defined.

Lemma vote_stops_early_witness :
  let w := session [scenario_song] [lit "   "; lit "1"] in
  stops_early w [Prompt (lit "Search for song to vote on: ")] [lit "1"] ∧
  vote_on_resource w
  = (Ret tt, set_stdin [lit "1"]
               (emits [Prompt (lit "Search for song to vote on: ")] w)).
Proof.
  intros w.
  assert (stops_early w [Prompt (lit "Search for song to vote on: ")] [lit "1"])
    as Hearly.
  { by apply (stops_blank w (lit "   ") [lit "1"]). }
  split; [exact Hearly |].
  exact (vote_stops_early w _ _ Hearly).
Defined.


Lemma vote_raises_total_witness :
  let w := session [scenario_song] [lit "s1"; lit "1"; lit "2"] in
  let w' := (vote_on_resource w).2 in
  (vote_on_resource w = (Ret tt, w') ∧ vote_added w w') ∧
  ∃ i s s',
    songs w !! i = Some s ∧ songs w' !! i = Some s' ∧
    song_votes s' = song_votes s + 1 ∧
    ∀ j, j ≠ i → songs w' !! j = songs w !! j.
Proof.
  intros w w'.
  assert (vote_on_resource w = (Ret tt, w')) as Hrun by reflexivity.
  assert (vote_added w w') as Hadded.
  { exists (take 9 (trace w')), (save_data (songs w')), 3. reflexivity. }
  split; [by split |].
  exact (vote_raises_total w (Ret tt) w' Hrun Hadded).
Defined.
